(** * Shallow embedding of [mygeodb.graph.connectedComponentsLabeler]

    The Python class builds a disjoint-set forest over the keys that appear
    in an edge DataFrame (two columns [a], [b]), links the two endpoints of
    every edge, compresses every path and returns a DataFrame of
    [(id, cc)] rows.

    Modelling choices, following [src/graph.py]:
    - an edge DataFrame is a [list (K * K)] (its rows in [itertuples] order);
    - the Python dicts [hash2seq], [seq2hash] are [gmap K nat], [gmap nat K];
      they are *class* attributes, mutated in place by [__init__]
      ([self.hash2seq[hash] = seq] never rebinds the attribute), so they
      live in a [ClassAttrs] record shared by every instance, while
      [hashes], [edges], [numberOfNodes] and [forest] are rebound on the
      instance and live in [Inst];
    - [self.forest] is a [list nat]; [forest[i]] is the lookup [!!] and
      [forest[i] = v] is the list insert (always at an index that was just
      read, hence in range);
    - the iteration order of the Python set [set(a).union(b)] is an
      implementation detail of CPython; it is the parameter [pyset];
    - a failed dict or list subscript ([KeyError], [IndexError]) is [None];
    - the recursion of [connectedComponentIdentifier] gets a fuel bound,
      [length forest], which the development proves sufficient on every
      forest reachable by ingestion; running out of fuel is [None]. *)

From stdpp Require Import base gmap list strings.
From Stdlib Require Import Relations ZArith.

(** ** The forest: [connectedComponentIdentifier], [link], [simplifyForest] *)

Module Forest.

(** [connectedComponentIdentifier(node)]:
<<
    if self.forest[node] != node:
        r = self.connectedComponentIdentifier(self.forest[node])
        self.forest[node] = r
        return r
    else:
        return node
>>
    State passed explicitly: the forest in, the forest and the root out. *)
Fixpoint cci (fuel : nat) (forest : list nat) (node : nat)
  : option (list nat * nat) :=
  match fuel with
  | O => None
  | S fuel' =>
      match forest !! node with
      | None => None
      | Some p =>
          if decide (p <> node) then
            match cci fuel' forest p with
            | None => None
            | Some (forest', r) => Some (<[node := r]> forest', r)
            end
          else Some (forest, node)
      end
  end.

(** The top-level call: fuel [length forest]. *)
Definition connectedComponentIdentifier (forest : list nat) (node : nat)
  : option (list nat * nat) :=
  cci (length forest) forest node.

(** Number of nested Python frames of [connectedComponentIdentifier] opened
    by one call: one per visited node, because the recursive call is made
    before the forest is updated. *)
Fixpoint cci_depth (fuel : nat) (forest : list nat) (node : nat) : nat :=
  match fuel with
  | O => 0
  | S fuel' =>
      match forest !! node with
      | None => 1
      | Some p => if decide (p <> node) then S (cci_depth fuel' forest p) else 1
      end
  end.

Definition depth (forest : list nat) (node : nat) : nat :=
  cci_depth (length forest) forest node.

(** [link(nodeA, nodeB)]:
<<
    ccA = self.connectedComponentIdentifier(nodeA)
    ccB = self.connectedComponentIdentifier(nodeB)
    if ccA != ccB:
        self.forest[ccA] = ccB
>> *)
Definition link (forest : list nat) (nodeA nodeB : nat) : option (list nat) :=
  match connectedComponentIdentifier forest nodeA with
  | None => None
  | Some (forest1, ccA) =>
      match connectedComponentIdentifier forest1 nodeB with
      | None => None
      | Some (forest2, ccB) =>
          if decide (ccA <> ccB) then Some (<[ccA := ccB]> forest2)
          else Some forest2
      end
  end.

(** [simplifyForest()]:
<<
    for i in range(0, len(self.forest)):
        self.forest[i] = self.connectedComponentIdentifier(i)
>>
    [range] is evaluated once, on the length at loop entry. *)
Fixpoint simplify_loop (idx : list nat) (forest : list nat) : option (list nat) :=
  match idx with
  | [] => Some forest
  | i :: idx' =>
      match connectedComponentIdentifier forest i with
      | None => None
      | Some (forest', r) => simplify_loop idx' (<[i := r]> forest')
      end
  end.

Definition simplifyForest (forest : list nat) : option (list nat) :=
  simplify_loop (seq 0 (length forest)) forest.

(** [countOfComponents()] of the spec's ComponentResolver: there is no such
    method in the source (its test counts [DISTINCT cc] of the output).
    Modelled from the spec: the number of components is the number of roots
    of the forest, the indices [i] with [forest[i] == i]. *)
Definition countOfComponents (forest : list nat) : nat :=
  length (filter (fun i => forest !! i = Some i) (seq 0 (length forest))).

(** [i] reaches the root [r] by following parent links (finitely). *)
Inductive reach (forest : list nat) : nat -> nat -> Prop :=
  | reach_root i : forest !! i = Some i -> reach forest i i
  | reach_step i p r :
      forest !! i = Some p -> p <> i -> reach forest p r -> reach forest i r.

(** Parent links are in range ... *)
Definition in_range (forest : list nat) : Prop :=
  forall i p, forest !! i = Some p -> p < length forest.

(** ... and acyclic: every node reaches a root. *)
Definition acyclic (forest : list nat) : Prop :=
  forall i, i < length forest -> exists r, reach forest i r.

Definition wf (forest : list nat) : Prop := in_range forest /\ acyclic forest.

(** Boolean check used on concrete forests. *)
Definition wfb (forest : list nat) : bool :=
  forallb (fun i => match connectedComponentIdentifier forest i with
                    | Some _ => true | None => false end)
          (seq 0 (length forest))
  && forallb (fun p => bool_decide (p < length forest)) forest.

(** Forests reachable by ingestion: the initial forest, then [link]s. *)
Inductive ingest_reachable (n : nat) : list nat -> Prop :=
  | ir_init : ingest_reachable n (seq 0 n)
  | ir_link f i j f' :
      ingest_reachable n f -> i < n -> j < n ->
      link f i j = Some f' -> ingest_reachable n f'.

End Forest.

(** ** The labeler object *)

Module Labeler.
Import Forest.

Section Labeler.
Context {K : Type} `{Countable K}.

(** Iteration order of the Python set [set(edges["a"]).union(edges["b"])],
    given the concatenated columns. *)
Variable pyset : list K -> list K.

(** Class attributes mutated in place by [__init__]: shared by all instances. *)
Record ClassAttrs := mkClassAttrs {
  hash2seq : gmap K nat;
  seq2hash : gmap nat K;
}.

(** [hash2seq = {}] and [seq2hash = {}] at class definition. *)
Definition class0 : ClassAttrs := mkClassAttrs ∅ ∅.

(** Instance attributes (rebound by [__init__]). *)
Record Inst := mkInst {
  edges : list (K * K);
  hashes : list K;
  numberOfNodes : nat;
  forest : list nat;
}.

(** The heap an instance method sees: the class attributes and [self]. *)
Record St := mkSt { cls : ClassAttrs; self : Inst }.

Definition set_forest (s : St) (f : list nat) : St :=
  mkSt (cls s) (mkInst (edges (self s)) (hashes (self s))
                       (numberOfNodes (self s)) f).

(** The methods, on the whole heap. *)
Definition m_connectedComponentIdentifier (s : St) (node : nat)
  : option (St * nat) :=
  '(f', r) ← connectedComponentIdentifier (forest (self s)) node;
  Some (set_forest s f', r).

Definition m_link (s : St) (nodeA nodeB : nat) : option St :=
  f' ← link (forest (self s)) nodeA nodeB;
  Some (set_forest s f').

Definition m_simplifyForest (s : St) : option St :=
  f' ← simplifyForest (forest (self s));
  Some (set_forest s f').

(** [getConnectedCompontents()]: resolve, then
    [pd.DataFrame({'id': self.hashes, 'cc': self.forest})], as its rows. *)
Definition getConnectedCompontents (s : St) : option (St * list (K * nat)) :=
  s' ← m_simplifyForest s;
  Some (s', zip (hashes (self s')) (forest (self s'))).

(** [for (hash, seq) in zip(self.hashes, range(len(self.hashes))):
        self.hash2seq[hash] = seq; self.seq2hash[seq] = hash] *)
Fixpoint register (hs : list K) (sq : nat) (c : ClassAttrs) : ClassAttrs :=
  match hs with
  | [] => c
  | h :: hs' =>
      register hs' (S sq) (mkClassAttrs (<[h := sq]> (hash2seq c))
                                        (<[sq := h]> (seq2hash c)))
  end.

(** [for row in self.edges.itertuples():
        self.link(self.hash2seq[row.a], self.hash2seq[row.b])] *)
Fixpoint ingest (es : list (K * K)) (s : St) : option St :=
  match es with
  | [] => Some s
  | (a, b) :: es' =>
      ia ← hash2seq (cls s) !! a;
      ib ← hash2seq (cls s) !! b;
      s' ← m_link s ia ib;
      ingest es' s'
  end.

Definition keys (es : list (K * K)) : list K := map fst es ++ map snd es.

(** [__init__(self, edges)], run on the class attributes [c]. The instance
    attributes before [__init__] are the class defaults; all of them are
    rebound before being read, so they do not matter. *)
Definition init (c : ClassAttrs) (es : list (K * K)) : option St :=
  let hs := pyset (keys es) in
  let c' := register hs 0 c in
  let n := length hs in
  ingest es (mkSt c' (mkInst es hs n (seq 0 n))).

(** [connectedComponentsLabeler(edges).getConnectedCompontents()], as
    called by [geodatabase.findConnectedComponents]: the rows of the
    output, and the class attributes left behind. *)
Definition run (c : ClassAttrs) (es : list (K * K))
  : option (ClassAttrs * list (K * nat)) :=
  s ← init c es;
  '(s', rows) ← getConnectedCompontents s;
  Some (cls s', rows).

(** Reading the output relation: the [cc] of the row whose [id] is [x]. *)
Fixpoint labelOf (rows : list (K * nat)) (x : K) : option nat :=
  match rows with
  | [] => None
  | (k, cc) :: rows' => if decide (k = x) then Some cc else labelOf rows' x
  end.

(** What a method leaves alone: the class dicts, and every instance
    attribute but [forest]. *)
Definition unchanged_except_forest (s s' : St) : Prop :=
  hash2seq (cls s') = hash2seq (cls s) /\ seq2hash (cls s') = seq2hash (cls s) /\
  edges (self s') = edges (self s) /\ hashes (self s') = hashes (self s) /\
  numberOfNodes (self s') = numberOfNodes (self s).

(** Transitive connection by the edges (undirected, reflexive). *)
Definition edge_rel (es : list (K * K)) : relation K :=
  fun x y => In (x, y) es.

Definition connected (es : list (K * K)) : relation K :=
  clos_refl_sym_trans K (edge_rel es).

End Labeler.
End Labeler.

(** ** Concrete inputs *)

Module Scenarios.
Open Scope string_scope.

(** The graph of [testGeodatabase.test_findConnectedComponents]. *)
Definition scenario1 : list (string * string) :=
  [("A", "B"); ("A", "D"); ("B", "C"); ("B", "E"); ("F", "G")].

(** The chain [(1,2), (2,3), ..., (n,n+1)] of integer keys. *)
Definition chain (n : nat) : list (Z * Z) :=
  map (fun k => (Z.of_nat k, Z.of_nat (S k))) (seq 1 n).

(** An edge with a null ([None]) endpoint, as [pd.read_sql] returns a
    NULL of a text column. *)
Definition null_edge : list (option string * option string) :=
  [(Some "A", None)].

(** The same connections, permuted, reversed, repeated, with a self-loop. *)
Definition perm_a : list (string * string) := [("A", "B"); ("B", "C")].
Definition perm_b : list (string * string) :=
  [("C", "B"); ("A", "B"); ("A", "B"); ("B", "B")].

End Scenarios.

(** * Proofs *)

(** ** Facts about the forest *)

Module ForestFacts.
Import Forest.

(** [reach] with the list of visited nodes, root included. *)
Inductive rpath (f : list nat) : nat -> nat -> list nat -> Prop :=
  | rp_root i : f !! i = Some i -> rpath f i i [i]
  | rp_step i p r l :
      f !! i = Some p -> p <> i -> rpath f p r l -> rpath f i r (i :: l).

Lemma reach_rpath f i r : reach f i r -> exists l, rpath f i r l.
Proof.
  induction 1 as [i Hi|i p r Hp Hne _ [l Hl]].
  - exists [i]. by constructor.
  - exists (i :: l). by econstructor.
Qed.

Lemma rpath_det f i r l r' l' :
  rpath f i r l -> rpath f i r' l' -> r = r' /\ l = l'.
Proof.
  intros Hp; revert r' l'.
  induction Hp as [i Hi|i p r l Hip Hne Hp IH]; intros r' l' Hq.
  - inversion Hq; subst; [done|congruence].
  - inversion Hq as [? Hq'|? p' ? l2 Hq1 Hq2 Hq3]; subst; [congruence|].
    assert (p' = p) by congruence; subst.
    destruct (IH _ _ Hq3) as [-> ->]. done.
Qed.

Lemma rpath_suffix f i r l x :
  rpath f i r l -> x ∈ l -> exists l', rpath f x r l' /\ length l' <= length l.
Proof.
  induction 1 as [i Hi|i p r l Hip Hne Hp IH]; intros Hx.
  - apply list_elem_of_singleton in Hx as ->. exists [i]; split; [by constructor|done].
  - apply elem_of_cons in Hx as [->|Hx].
    + exists (i :: l). split; [by econstructor|done].
    + destruct (IH Hx) as (l' & ? & ?). exists l'. simpl. split; [done|lia].
Qed.

Lemma rpath_NoDup f i r l : rpath f i r l -> NoDup l.
Proof.
  induction 1 as [i Hi|i p r l Hip Hne Hp IH].
  - apply NoDup_singleton.
  - constructor; [|done]. intros Hin.
    destruct (rpath_suffix _ _ _ _ _ Hp Hin) as (l' & Hl' & Hlen).
    assert (Hi : rpath f i r (i :: l)) by (econstructor; eauto).
    destruct (rpath_det _ _ _ _ _ _ Hl' Hi) as [_ ->]. simpl in Hlen. lia.
Qed.

Lemma rpath_bound f i r l : rpath f i r l -> length l <= length f.
Proof.
  intros Hp. rewrite <- (length_seq (length f) 0).
  apply NoDup_incl_length; [apply NoDup_ListNoDup, (rpath_NoDup _ _ _ _ Hp)|].
  intros x Hx. apply list_elem_of_In in Hx.
  apply in_seq. split; [lia|]. simpl.
  induction Hp as [i Hi|i p r l Hip Hne Hp IH].
  - apply list_elem_of_singleton in Hx; subst. simpl. eapply lookup_lt_Some; eauto.
  - apply elem_of_cons in Hx as [->|Hx]; [|auto].
    simpl. eapply lookup_lt_Some; eauto.
Qed.

Lemma reach_det f i r r' : reach f i r -> reach f i r' -> r = r'.
Proof.
  intros H1 H2. revert r' H2.
  induction H1 as [i Hi|i p r Hp Hne _ IH]; intros r' H2.
  - inversion H2; subst; [done|congruence].
  - inversion H2 as [? Hq'|? p' ? Hq1 Hq2 Hq3]; subst; [congruence|].
    apply IH. by replace p with p' by congruence.
Qed.

Lemma reach_is_root f i r : reach f i r -> f !! r = Some r.
Proof. by induction 1. Qed.

Lemma reach_lt f i r : reach f i r -> i < length f.
Proof. destruct 1; eapply lookup_lt_Some; eauto. Qed.

Lemma reach_self_root f x : reach f x x <-> f !! x = Some x.
Proof.
  split; [apply reach_is_root|]. intros; by constructor.
Qed.

Lemma root_reach f r : f !! r = Some r -> forall r', reach f r r' -> r' = r.
Proof. intros Hr r' Hx. eapply reach_det; [exact Hx|by constructor]. Qed.

(** A forest is turned into a compressed version of itself: same length,
    same roots for every node, and every entry is either unchanged or the
    root of its node. *)
Definition compresses (f f' : list nat) : Prop :=
  length f' = length f /\
  (forall y r, reach f y r <-> reach f' y r) /\
  (forall j, f' !! j = f !! j \/ exists r, f' !! j = Some r /\ reach f j r).

Lemma compresses_refl f : compresses f f.
Proof. split; [done|split; [done|auto]]. Qed.

Lemma compresses_trans f1 f2 f3 :
  compresses f1 f2 -> compresses f2 f3 -> compresses f1 f3.
Proof.
  intros (L1 & R1 & E1) (L2 & R2 & E2). split; [lia|split].
  - intros y r. by rewrite R1, R2.
  - intros j. destruct (E2 j) as [->|(r & Hr & Hreach)]; [apply E1|].
    right. exists r. split; [done|]. by apply R1.
Qed.

(** One relinking step: a node is set to its own root. *)
Lemma compresses_insert f x r :
  reach f x r -> compresses f (<[x := r]> f).
Proof.
  intros Hx.
  destruct (decide (f !! x = Some x)) as [Hroot|Hnr].
  { assert (r = x) by (eapply root_reach; eauto). subst.
    rewrite list_insert_id by done. apply compresses_refl. }
  assert (Hrx : r <> x) by (intros ->; apply Hnr, (reach_is_root _ _ _ Hx)).
  assert (Hlt : x < length f) by (eapply reach_lt; eauto).
  assert (Hrr : f !! r = Some r) by (eapply reach_is_root; eauto).
  split; [apply length_insert|split].
  - intros y s. split.
    + induction 1 as [i Hi|i p s Hp Hne Hps IH].
      * assert (i <> x) by (intros ->; congruence).
        constructor. by rewrite list_lookup_insert_ne.
      * destruct (decide (i = x)) as [->|Hix].
        -- assert (s = r) by (eapply reach_det; [|exact Hx]; econstructor; eauto).
           subst. econstructor; [by rewrite list_lookup_insert_eq| done |].
           constructor. by rewrite list_lookup_insert_ne.
        -- econstructor; [by rewrite list_lookup_insert_ne|done|done].
    + induction 1 as [i Hi|i p s Hp Hne Hps IH].
      * destruct (decide (i = x)) as [->|Hix].
        -- rewrite list_lookup_insert_eq in Hi by done. congruence.
        -- rewrite list_lookup_insert_ne in Hi by done. by constructor.
      * destruct (decide (i = x)) as [->|Hix].
        -- rewrite list_lookup_insert_eq in Hp by done. injection Hp as <-.
           assert (s = r).
           { inversion Hps; subst; [done|].
             rewrite list_lookup_insert_ne in H by done. congruence. }
           by subst.
        -- rewrite list_lookup_insert_ne in Hp by done. econstructor; eauto.
  - intros j. destruct (decide (j = x)) as [->|Hj].
    + right. exists r. by rewrite list_lookup_insert_eq.
    + left. by rewrite list_lookup_insert_ne.
Qed.

Lemma compresses_root f f' x :
  compresses f f' -> (f' !! x = Some x <-> f !! x = Some x).
Proof.
  intros (_ & R & _). rewrite <- !reach_self_root. symmetry. apply R.
Qed.

Lemma compresses_wf f f' : compresses f f' -> wf f -> wf f'.
Proof.
  intros (L & R & E) [Hr Ha]. split.
  - intros j p Hj. rewrite L. destruct (E j) as [Hj'|(r & Hj' & Hreach)].
    + rewrite Hj' in Hj. eauto.
    + rewrite Hj in Hj'. injection Hj' as <-.
      eapply reach_lt, reach_root, reach_is_root, Hreach.
  - intros i Hi. rewrite L in Hi. destruct (Ha i Hi) as [r Hir].
    exists r. by apply R.
Qed.

(** An entry that names a root. *)
Definition direct (f : list nat) (j : nat) : Prop :=
  exists r, f !! j = Some r /\ f !! r = Some r.

Lemma direct_reach f j : direct f j -> exists r, f !! j = Some r /\ reach f j r.
Proof.
  intros (r & Hj & Hr). exists r. split; [done|].
  destruct (decide (r = j)) as [->|Hne]; [by constructor|].
  econstructor; eauto. by constructor.
Qed.

Lemma compresses_direct f f' j : compresses f f' -> direct f j -> direct f' j.
Proof.
  intros Hc Hd. pose proof Hc as (L & R & E).
  destruct (direct_reach _ _ Hd) as (r & Hj & Hjr).
  exists r. split.
  - destruct (E j) as [->|(r' & Hj' & Hr')]; [done|].
    by rewrite (reach_det _ _ _ _ Hjr Hr').
  - apply (compresses_root _ _ _ Hc). eapply reach_is_root; eauto.
Qed.

Lemma compresses_all_direct_eq f f' :
  compresses f f' -> (forall j, j < length f -> direct f j) -> f' = f.
Proof.
  intros (L & R & E) Hd. apply list_eq. intros j.
  destruct (decide (j < length f)) as [Hj|Hj].
  - destruct (E j) as [->|(r & Hj' & Hr)]; [done|].
    destruct (direct_reach _ _ (Hd j Hj)) as (r' & Hjr' & Hr').
    rewrite Hj', Hjr'. f_equal. eapply reach_det; eauto.
  - rewrite !lookup_ge_None_2 by lia. done.
Qed.

(** The recursion of [connectedComponentIdentifier] along a parent path. *)
Lemma cci_rpath fuel f i r l :
  rpath f i r l -> length l <= fuel ->
  exists f', cci fuel f i = Some (f', r) /\ compresses f f' /\ f' !! i = Some r.
Proof.
  intros Hp. revert fuel.
  induction Hp as [i Hi|i p r l Hip Hne Hp IH]; intros [|fuel] Hfuel;
    simpl in Hfuel; try lia; simpl.
  - rewrite Hi, decide_False by tauto.
    exists f. split; [done|split; [apply compresses_refl|done]].
  - rewrite Hip, decide_True by done.
    destruct (IH fuel ltac:(lia)) as (f1 & -> & Hc1 & Hp1).
    eexists. split; [done|].
    assert (Hreach : reach f i r).
    { econstructor; eauto. clear -Hp. induction Hp; econstructor; eauto. }
    pose proof Hc1 as (L1 & R1 & _).
    split.
    + eapply compresses_trans; [exact Hc1|]. apply compresses_insert. by apply R1.
    + apply list_lookup_insert_eq. rewrite L1. eapply lookup_lt_Some; eauto.
Qed.

Lemma rpath_reach f i r l : rpath f i r l -> reach f i r.
Proof. induction 1; econstructor; eauto. Qed.

(** [connectedComponentIdentifier] on a well-formed forest. *)
Lemma cci_wf f i :
  wf f -> i < length f ->
  exists f' r, connectedComponentIdentifier f i = Some (f', r) /\
    reach f i r /\ compresses f f' /\ f' !! i = Some r.
Proof.
  intros [_ Ha] Hi. destruct (Ha i Hi) as [r Hr].
  destruct (reach_rpath _ _ _ Hr) as [l Hl].
  destruct (cci_rpath (length f) f i r l Hl (rpath_bound _ _ _ _ Hl))
    as (f' & E & Hc & Hf').
  exists f', r. unfold connectedComponentIdentifier. rewrite E. auto.
Qed.

(** Linking two distinct roots: the root [ra] is hung under [rb]. *)
Section Hang.
Variables (g : list nat) (ra rb : nat).
Hypotheses (Hg : wf g) (Hra : g !! ra = Some ra) (Hrb : g !! rb = Some rb)
           (Hne : ra <> rb).

Definition retarget (r : nat) : nat := if decide (r = ra) then rb else r.

Lemma hang_reach y r : reach g y r -> reach (<[ra := rb]> g) y (retarget r).
Proof.
  assert (Hlt : ra < length g) by (eapply lookup_lt_Some; eauto).
  assert (Hrb' : <[ra:=rb]> g !! rb = Some rb) by (rewrite list_lookup_insert_ne; auto).
  unfold retarget. induction 1 as [i Hi|i p r Hp Hnp Hpr IH].
  - destruct (decide (i = ra)) as [->|Hi'].
    + econstructor; [by rewrite list_lookup_insert_eq|auto|by constructor].
    + constructor. by rewrite list_lookup_insert_ne.
  - assert (i <> ra) by (intros ->; congruence).
    econstructor; [by rewrite list_lookup_insert_ne|done|done].
Qed.

Lemma hang_reach_iff y s :
  reach (<[ra := rb]> g) y s <-> exists r, reach g y r /\ s = retarget r.
Proof.
  split.
  - intros Hs. assert (Hy : y < length g).
    { rewrite <- (length_insert g ra rb). eapply reach_lt; eauto. }
    destruct (proj2 Hg y Hy) as [r Hr]. exists r. split; [done|].
    eapply reach_det; [exact Hs|by apply hang_reach].
  - intros (r & Hr & ->). by apply hang_reach.
Qed.

Lemma hang_wf : wf (<[ra := rb]> g).
Proof.
  destruct Hg as [Hin Ha]. split.
  - intros i p. rewrite length_insert, list_lookup_insert.
    case_decide as Hc; [intros [=<-]; eapply lookup_lt_Some; eauto|eauto].
  - intros i. rewrite length_insert. intros Hi.
    destruct (Ha i Hi) as [r Hr]. eexists. by apply hang_reach.
Qed.

End Hang.

(** [link] on a well-formed forest: either nothing but compression happens,
    or the root of [nodeA] is hung under the root of [nodeB]. *)
Lemma link_wf f a b :
  wf f -> a < length f -> b < length f ->
  exists ra rb g f', link f a b = Some f' /\
    reach f a ra /\ reach f b rb /\ compresses f g /\
    (ra = rb -> f' = g) /\ (ra <> rb -> f' = <[ra := rb]> g).
Proof.
  intros Hwf Ha Hb.
  destruct (cci_wf f a Hwf Ha) as (f1 & ra & E1 & Hra & Hc1 & _).
  pose proof (compresses_wf _ _ Hc1 Hwf) as Hwf1.
  pose proof Hc1 as (L1 & R1 & _).
  destruct (cci_wf f1 b Hwf1 ltac:(lia)) as (f2 & rb & E2 & Hrb & Hc2 & _).
  pose proof Hc2 as (L2 & R2 & _).
  exists ra, rb, f2. unfold link. rewrite E1, E2.
  destruct (decide (ra <> rb)) as [Hne|Heq].
  - eexists. split; [done|]. split; [done|]. split; [by apply R1|].
    split; [eapply compresses_trans; eauto|]. split; [tauto|done].
  - eexists. split; [done|]. split; [done|]. split; [by apply R1|].
    split; [eapply compresses_trans; eauto|]. split; [done|tauto].
Qed.

Lemma link_length f a b f' :
  wf f -> a < length f -> b < length f -> link f a b = Some f' ->
  length f' = length f /\ wf f'.
Proof.
  intros Hwf Ha Hb E.
  destruct (link_wf f a b Hwf Ha Hb) as (ra & rb & g & f'' & E' & Hra & Hrb & Hc & Heq & Hne).
  rewrite E in E'. injection E' as <-.
  pose proof (compresses_wf _ _ Hc Hwf) as Hwfg. pose proof Hc as (L & R & _).
  destruct (decide (ra = rb)) as [e|n].
  - rewrite (Heq e). auto.
  - rewrite (Hne n). rewrite length_insert. split; [done|].
    apply hang_wf; [done| | |done];
      apply (compresses_root _ _ _ Hc); eapply reach_is_root; eauto.
Qed.

(** The loop of [simplifyForest]. *)
Lemma simplify_loop_wf idx g :
  wf g -> (forall i, i ∈ idx -> i < length g) ->
  exists g', simplify_loop idx g = Some g' /\ compresses g g' /\
    (forall i, i ∈ idx -> direct g' i).
Proof.
  revert g. induction idx as [|i idx IH]; intros g Hwf Hidx; simpl.
  - exists g. split; [done|split; [apply compresses_refl|]]. intros i Hi. inversion Hi.
  - destruct (cci_wf g i Hwf) as (g1 & r & -> & Hr & Hc1 & Hg1i);
      [apply Hidx; constructor|].
    rewrite (list_insert_id g1 i r Hg1i).
    pose proof Hc1 as (L1 & _ & _).
    destruct (IH g1 (compresses_wf _ _ Hc1 Hwf)) as (g' & -> & Hc' & Hd');
      [intros j Hj; rewrite L1; apply Hidx; by constructor|].
    exists g'. split; [done|]. split; [eapply compresses_trans; eauto|].
    intros j Hj. apply elem_of_cons in Hj as [->|Hj]; [|auto].
    apply (compresses_direct g1 g' i Hc'). exists r. split; [done|].
    apply (compresses_root _ _ _ Hc1). eapply reach_is_root; eauto.
Qed.

Lemma simplify_wf f :
  wf f -> exists f', simplifyForest f = Some f' /\ compresses f f' /\
    (forall i, i < length f -> direct f' i).
Proof.
  intros Hwf. unfold simplifyForest.
  destruct (simplify_loop_wf (seq 0 (length f)) f Hwf) as (f' & E & Hc & Hd).
  - intros i Hi. apply elem_of_seq in Hi. lia.
  - exists f'. split; [done|split; [done|]]. intros i Hi. apply Hd, elem_of_seq. lia.
Qed.

Lemma all_direct_wf f : (forall j, j < length f -> direct f j) -> wf f.
Proof.
  intros Hd. split.
  - intros i p Hi. destruct (Hd i (lookup_lt_Some _ _ _ Hi)) as (r & Hr & Hrr).
    rewrite Hi in Hr. injection Hr as ->. eapply lookup_lt_Some; eauto.
  - intros i Hi. destruct (direct_reach _ _ (Hd i Hi)) as (r & _ & Hr). eauto.
Qed.

(** A resolved forest is a fixed point of [simplifyForest]. *)
Lemma simplify_direct_id f :
  (forall j, j < length f -> direct f j) -> simplifyForest f = Some f.
Proof.
  intros Hd. destruct (simplify_wf f (all_direct_wf f Hd)) as (f' & E & Hc & _).
  rewrite E. f_equal. eapply compresses_all_direct_eq; eauto.
Qed.

(** Counting roots. *)
Lemma count_compresses f f' :
  compresses f f' -> countOfComponents f' = countOfComponents f.
Proof.
  intros Hc. pose proof Hc as (L & _ & _). unfold countOfComponents. rewrite L.
  f_equal. apply list_filter_iff. intros x. by apply compresses_root.
Qed.

Lemma filter_length_in (P Q : nat -> Prop)
    `{!forall x, Decision (P x), !forall x, Decision (Q x)} (l : list nat) :
  (forall x, x ∈ l -> P x <-> Q x) -> length (filter P l) = length (filter Q l).
Proof.
  induction l as [|y l IH]; intros Hx; [done|].
  assert (Hy : P y <-> Q y) by (apply Hx; constructor).
  assert (Hl : forall x, x ∈ l -> P x <-> Q x) by (intros; apply Hx; by constructor).
  destruct (decide (P y)) as [Py|Py].
  - rewrite filter_cons_True, (filter_cons_True Q) by tauto. simpl. auto.
  - rewrite filter_cons_False, (filter_cons_False Q) by tauto. auto.
Qed.

Lemma filter_drop_one (P Q : nat -> Prop)
    `{!forall x, Decision (P x), !forall x, Decision (Q x)} (l : list nat) (a : nat) :
  NoDup l -> a ∈ l -> P a -> ~ Q a -> (forall x, x <> a -> P x <-> Q x) ->
  length (filter P l) = S (length (filter Q l)).
Proof.
  intros Hnd Ha HP HQ Hx. induction l as [|y l IH]; [inversion Ha|].
  apply NoDup_cons in Hnd as [Hy Hnd].
  apply elem_of_cons in Ha as [->|Ha].
  - rewrite filter_cons_True, filter_cons_False by done. simpl. f_equal.
    apply filter_length_in. intros z Hz. apply Hx. intros ->. done.
  - assert (y <> a) by (intros ->; done).
    destruct (decide (P y)) as [Py|Py].
    + assert (Q y) by (apply Hx; auto).
      rewrite (filter_cons_True P), (filter_cons_True Q) by done.
      simpl. rewrite IH by done. done.
    + assert (~ Q y) by (rewrite <- Hx; auto).
      rewrite (filter_cons_False P), (filter_cons_False Q) by done.
      by apply IH.
Qed.

Lemma count_hang g ra rb :
  g !! ra = Some ra -> ra <> rb ->
  S (countOfComponents (<[ra := rb]> g)) = countOfComponents g.
Proof.
  intros Hra Hne. unfold countOfComponents. rewrite length_insert.
  symmetry. apply (filter_drop_one _ _ _ ra).
  - apply NoDup_seq.
  - apply elem_of_seq. split; [lia|]. simpl. eapply lookup_lt_Some; eauto.
  - done.
  - rewrite list_lookup_insert_eq by (eapply lookup_lt_Some; eauto). congruence.
  - intros x Hx. rewrite list_lookup_insert_ne by auto. done.
Qed.

(** Every forest reachable by ingestion is well formed. *)
Lemma seq_wf n : wf (seq 0 n).
Proof.
  split.
  - intros i p Hi. apply lookup_seq in Hi as [-> Hi]. rewrite length_seq. lia.
  - intros i Hi. rewrite length_seq in Hi. exists i. constructor.
    apply lookup_seq. lia.
Qed.

Lemma ingest_reachable_wf n f : ingest_reachable n f -> wf f /\ length f = n.
Proof.
  induction 1 as [|f i j f' Hr [Hwf Hlen] Hi Hj E].
  - split; [apply seq_wf|apply length_seq].
  - destruct (link_length f i j f' Hwf ltac:(lia) ltac:(lia) E). split; [done|lia].
Qed.

(** The boolean check [wfb] is sound. *)
Lemma cci_reach fuel f i f' r : cci fuel f i = Some (f', r) -> reach f i r.
Proof.
  revert i f' r. induction fuel as [|fuel IH]; intros i f' r; simpl; [done|].
  destruct (f !! i) as [p|] eqn:Hi; [|done].
  case_decide as Hp.
  - destruct (cci fuel f p) as [[f1 r1]|] eqn:E; [|done]. intros [= <- <-].
    econstructor; eauto.
  - intros [= <- <-]. constructor. rewrite Hi. f_equal. lia.
Qed.

Lemma wfb_wf f : wfb f = true -> wf f.
Proof.
  unfold wfb. intros [H1 H2]%andb_prop.
  rewrite forallb_forall in H1, H2. split.
  - intros i p Hi. apply (bool_decide_eq_true_1 (p < length f)), H2.
    apply list_elem_of_In, list_elem_of_lookup. eauto.
  - intros i Hi. specialize (H1 i). unfold connectedComponentIdentifier in H1.
    destruct (cci (length f) f i) as [[f' r]|] eqn:E.
    + exists r. eapply cci_reach; eauto.
    + discriminate H1. apply in_seq. lia.
Qed.

End ForestFacts.

(** ** Facts about the labeler *)

Module LabelerFacts.
Import Forest ForestFacts Labeler.

(** Equivalence-closure facts about [connected]. *)
Section Connected.
Context {K : Type} `{EqDecision K}.

Lemma connected_nil (x y : K) : connected [] x y -> x = y.
Proof. induction 1 as [? ? []| | |]; congruence. Qed.

Lemma connected_mono (E E' : list (K * K)) x y :
  (forall a b, In (a, b) E -> In (a, b) E') -> connected E x y -> connected E' x y.
Proof.
  intros Hsub. induction 1.
  - apply rst_step. by apply Hsub.
  - apply rst_refl.
  - by apply rst_sym.
  - eapply rst_trans; eauto.
Qed.

(** Adding the edge [(a, b)] joins the classes of [a] and [b]. *)
Lemma connected_snoc (E : list (K * K)) a b x y :
  connected (E ++ [(a, b)]) x y <->
  connected E x y \/ (connected E x a /\ connected E b y) \/
  (connected E x b /\ connected E a y).
Proof.
  split.
  - induction 1 as [x y Hxy|x|x y _ IH|x z y _ IH1 _ IH2].
    + unfold edge_rel in Hxy. apply in_app_or in Hxy as [Hxy|[Hxy|[]]].
      * left. by apply rst_step.
      * injection Hxy as -> ->. right; left; split; apply rst_refl.
    + left; apply rst_refl.
    + destruct IH as [?|[[? ?]|[? ?]]].
      * left; by apply rst_sym.
      * right; right; split; by apply rst_sym.
      * right; left; split; by apply rst_sym.
    + clear -IH1 IH2.
      destruct IH1 as [H1|[[H1 H1']|[H1 H1']]], IH2 as [H2|[[H2 H2']|[H2 H2']]].
      * left. eapply rst_trans; eauto.
      * right; left. split; [eapply rst_trans; eauto|done].
      * right; right. split; [eapply rst_trans; eauto|done].
      * right; left. split; [done|eapply rst_trans; eauto].
      * left. eapply rst_trans; [exact H1|]. eapply rst_trans; [apply rst_sym, H2|].
        eapply rst_trans; [apply rst_sym, H1'|exact H2'].
      * left. eapply rst_trans; eauto.
      * right; right. split; [done|eapply rst_trans; eauto].
      * left. eapply rst_trans; eauto.
      * left. eapply rst_trans; [exact H1|]. eapply rst_trans; [apply rst_sym, H2|].
        eapply rst_trans; [apply rst_sym, H1'|exact H2'].
  - assert (Hsub : forall u v, connected E u v -> connected (E ++ [(a, b)]) u v).
    { intros u v. apply connected_mono. intros. apply in_or_app. auto. }
    assert (Hab : connected (E ++ [(a, b)]) a b).
    { apply rst_step. apply in_or_app. right. by left. }
    intros [?|[[? ?]|[? ?]]]; [by apply Hsub| |].
    + eapply rst_trans; [apply Hsub; eauto|].
      eapply rst_trans; [exact Hab|apply Hsub; eauto].
    + eapply rst_trans; [apply Hsub; eauto|].
      eapply rst_trans; [apply rst_sym, Hab|apply Hsub; eauto].
Qed.

(** Connectivity only depends on the undirected, loop-free edge set. *)
Lemma connected_ext (E1 E2 : list (K * K)) :
  Forall (fun e => e.1 = e.2 \/ e ∈ E2 \/ (e.2, e.1) ∈ E2) E1 ->
  forall x y, connected E1 x y -> connected E2 x y.
Proof.
  intros Hsame. induction 1 as [x y Hxy| | |].
  - unfold edge_rel in Hxy. apply list_elem_of_In in Hxy.
    rewrite Forall_forall in Hsame.
    destruct (Hsame _ Hxy) as [Heq|[H2|H2]]; simpl in *.
    + subst. apply rst_refl.
    + apply rst_step. by apply list_elem_of_In.
    + apply rst_sym, rst_step. by apply list_elem_of_In.
  - apply rst_refl.
  - by apply rst_sym.
  - eapply rst_trans; eauto.
Qed.

(** A key that is no endpoint of the edges is connected to itself only. *)
Lemma connected_fresh (E : list (K * K)) x a b :
  x ∉ keys E -> connected E a b -> (a = x <-> b = x).
Proof.
  intros Hx. induction 1 as [a b Hab| | |]; [|tauto|tauto|tauto].
  unfold edge_rel in Hab. apply list_elem_of_In in Hab.
  assert (a ∈ keys E /\ b ∈ keys E) as [Ha Hb].
  { unfold keys. split; apply elem_of_app; [left|right];
      apply list_elem_of_In, in_map_iff; exists (a, b); split; try done;
      by apply list_elem_of_In. }
  split; intros ->; contradiction.
Qed.

End Connected.

Lemma retarget_eq ra rb rx ry :
  ra <> rb ->
  retarget ra rb rx = retarget ra rb ry <->
  rx = ry \/ (rx = ra /\ ry = rb) \/ (rx = rb /\ ry = ra).
Proof. intros Hne. unfold retarget. repeat case_decide; subst; naive_solver. Qed.

Section Run.
Context {K : Type} `{Countable K}.
Variable pyset : list K -> list K.

Lemma register_notin (hs : list K) sq c x :
  x ∉ hs -> hash2seq (register hs sq c) !! x = hash2seq c !! x.
Proof.
  revert sq c. induction hs as [|h hs IH]; intros sq c Hx; [done|]. simpl.
  rewrite IH by (intros ?; apply Hx; by constructor). simpl.
  rewrite lookup_insert_ne; [done|]. intros ->. apply Hx. constructor.
Qed.

Lemma register_lookup (hs : list K) sq c k x :
  NoDup hs -> hs !! k = Some x -> hash2seq (register hs sq c) !! x = Some (sq + k).
Proof.
  revert sq c k. induction hs as [|h hs IH]; intros sq c k Hnd Hk; [done|].
  apply NoDup_cons in Hnd as [Hh Hnd]. simpl.
  destruct k as [|k]; simpl in Hk.
  - injection Hk as ->. rewrite register_notin by done. simpl.
    rewrite lookup_insert_eq. f_equal. lia.
  - rewrite (IH (S sq) _ k) by done. f_equal. lia.
Qed.

(** Roots of the forest against connectivity of the edges seen so far. *)
Definition conn_inv (hs : list K) (E : list (K * K)) (f : list nat) : Prop :=
  forall i j x y rx ry, hs !! i = Some x -> hs !! j = Some y ->
    reach f i rx -> reach f j ry -> (rx = ry <-> connected E x y).

Lemma conn_inv_init (hs : list K) :
  NoDup hs -> conn_inv hs [] (seq 0 (length hs)).
Proof.
  intros Hnd i j x y rx ry Hi Hj Hrx Hry.
  assert (Hroot : forall k r, k < length hs -> reach (seq 0 (length hs)) k r -> r = k).
  { intros k r Hk Hr. eapply root_reach; [|exact Hr]. apply lookup_seq. lia. }
  rewrite (Hroot i rx), (Hroot j ry) by (eauto using lookup_lt_Some).
  split.
  - intros ->. rewrite Hi in Hj. injection Hj as ->. apply rst_refl.
  - intros Hc%connected_nil. subst. eapply NoDup_lookup; eauto.
Qed.

Lemma conn_inv_link (hs : list K) E a b ka kb f f' :
  wf f -> length f = length hs ->
  hs !! ka = Some a -> hs !! kb = Some b ->
  link f ka kb = Some f' -> conn_inv hs E f ->
  conn_inv hs (E ++ [(a, b)]) f'.
Proof.
  intros Hwf Hlen Ha Hb E' Inv.
  assert (ka < length f) by (rewrite Hlen; eapply lookup_lt_Some; eauto).
  assert (kb < length f) by (rewrite Hlen; eapply lookup_lt_Some; eauto).
  destruct (link_wf f ka kb Hwf) as (ra & rb & g & f'' & E'' & Hra & Hrb & Hc & Heq & Hne);
    [done|done|].
  rewrite E' in E''. injection E'' as <-.
  pose proof Hc as (Lg & Rg & _). pose proof (compresses_wf _ _ Hc Hwf) as Hwfg.
  intros i j x y sx sy Hi Hj Hsx Hsy.
  rewrite connected_snoc.
  destruct (decide (ra = rb)) as [e|n].
  - rewrite (Heq e) in Hsx, Hsy. apply Rg in Hsx, Hsy.
    pose proof (Inv _ _ _ _ _ _ Hi Hj Hsx Hsy) as Exy.
    pose proof (Inv _ _ _ _ _ _ Hi Ha Hsx Hra) as Exa.
    pose proof (Inv _ _ _ _ _ _ Hb Hj Hrb Hsy) as Eby.
    pose proof (Inv _ _ _ _ _ _ Hi Hb Hsx Hrb) as Exb.
    pose proof (Inv _ _ _ _ _ _ Ha Hj Hra Hsy) as Eay.
    subst rb. rewrite <- Exy, <- Exa, <- Eby, <- Exb, <- Eay. naive_solver.
  - rewrite (Hne n) in Hsx, Hsy.
    assert (Hra' : g !! ra = Some ra)
      by (apply (compresses_root _ _ _ Hc); eapply reach_is_root; eauto).
    assert (Hrb' : g !! rb = Some rb)
      by (apply (compresses_root _ _ _ Hc); eapply reach_is_root; eauto).
    apply (hang_reach_iff g ra rb Hwfg Hra' Hrb' n) in Hsx as (rx & Hrx & ->).
    apply (hang_reach_iff g ra rb Hwfg Hra' Hrb' n) in Hsy as (ry & Hry & ->).
    apply Rg in Hrx, Hry.
    rewrite retarget_eq by done.
    pose proof (Inv _ _ _ _ _ _ Hi Hj Hrx Hry) as Exy.
    pose proof (Inv _ _ _ _ _ _ Hi Ha Hrx Hra) as Exa.
    pose proof (Inv _ _ _ _ _ _ Hb Hj Hrb Hry) as Eby.
    pose proof (Inv _ _ _ _ _ _ Hi Hb Hrx Hrb) as Exb.
    pose proof (Inv _ _ _ _ _ _ Ha Hj Hra Hry) as Eay.
    rewrite <- Exy, <- Exa, <- Eby, <- Exb, <- Eay.
    split; intros [?|[[? ?]|[? ?]]]; subst; auto.
Qed.

(** The methods touch nothing but [self.forest]. *)
Lemma m_link_frame (s : @St K _ _) a b s' :
  m_link s a b = Some s' ->
  exists f', link (forest (self s)) a b = Some f' /\ s' = set_forest s f'.
Proof.
  unfold m_link. destruct (link _ a b) as [f'|]; simpl; [|done].
  intros [= <-]. eauto.
Qed.

(** [__init__]'s loop over the rows. *)
Lemma ingest_spec (hs : list K) (es done : list (K * K)) (s : @St K _ _) :
  NoDup hs -> hashes (self s) = hs ->
  (forall k x, hs !! k = Some x -> hash2seq (cls s) !! x = Some k) ->
  (forall a b, In (a, b) es -> a ∈ hs /\ b ∈ hs) ->
  wf (forest (self s)) -> length (forest (self s)) = length hs ->
  conn_inv hs done (forest (self s)) ->
  exists s', ingest es s = Some s' /\
    cls s' = cls s /\ edges (self s') = edges (self s) /\
    hashes (self s') = hs /\ numberOfNodes (self s') = numberOfNodes (self s) /\
    wf (forest (self s')) /\ length (forest (self s')) = length hs /\
    conn_inv hs (done ++ es) (forest (self s')).
Proof.
  revert done s. induction es as [|[a b] es IH]; intros done s Hnd Hhs Hmap Hes Hwf Hlen Inv.
  - exists s. rewrite app_nil_r. simpl. auto 10.
  - destruct (Hes a b (or_introl eq_refl)) as [Ha Hb].
    apply list_elem_of_lookup in Ha as [ka Hka], Hb as [kb Hkb].
    simpl. rewrite (Hmap _ _ Hka), (Hmap _ _ Hkb). simpl.
    assert (ka < length (forest (self s))) by (rewrite Hlen; eapply lookup_lt_Some; eauto).
    assert (kb < length (forest (self s))) by (rewrite Hlen; eapply lookup_lt_Some; eauto).
    destruct (link_wf _ ka kb Hwf) as (ra & rb & g & f' & Ef' & _); [done|done|].
    destruct (link_length _ ka kb f' Hwf ltac:(done) ltac:(done) Ef') as [Lf' Wf'].
    unfold m_link. rewrite Ef'. simpl.
    destruct (IH (done ++ [(a, b)]) (set_forest s f')) as (s' & E' & Hc & He & Hh & Hn & Hw & Hl & Hi);
      try done.
    + intros a' b' Hin. apply Hes. by right.
    + simpl. lia.
    + apply (conn_inv_link hs done a b ka kb (forest (self s)) f'); auto.
    + exists s'. rewrite <- app_assoc in Hi. simpl in *. auto 10.
Qed.

Lemma hashes_perm (E : list (K * K)) :
  pyset (keys E) ≡ₚ remove_dups (keys E) ->
  NoDup (pyset (keys E)) /\ (forall x, x ∈ pyset (keys E) <-> x ∈ keys E).
Proof.
  intros Hp. split.
  - rewrite Hp. apply NoDup_remove_dups.
  - intros x. rewrite Hp. apply elem_of_remove_dups.
Qed.

(** The constructor, from any class attributes [c]. *)
Lemma init_spec (c : @ClassAttrs K _ _) (E : list (K * K)) :
  pyset (keys E) ≡ₚ remove_dups (keys E) ->
  exists s, init pyset c E = Some s /\
    cls s = register (pyset (keys E)) 0 c /\ edges (self s) = E /\
    hashes (self s) = pyset (keys E) /\
    numberOfNodes (self s) = length (pyset (keys E)) /\
    wf (forest (self s)) /\ length (forest (self s)) = length (pyset (keys E)) /\
    conn_inv (pyset (keys E)) E (forest (self s)).
Proof.
  intros Hp. destruct (hashes_perm E Hp) as [Hnd Hel].
  unfold init.
  set (hs := pyset (keys E)) in *.
  destruct (ingest_spec hs E [] (mkSt (register hs 0 c) (mkInst E hs (length hs) (seq 0 (length hs)))))
    as (s' & E' & Hc & He & Hh & Hn & Hw & Hl & Hi); simpl; try done.
  - intros k x Hk. by rewrite (register_lookup hs 0 c k x).
  - intros a b Hin. rewrite !Hel. unfold keys. split; apply elem_of_app.
    + left. apply list_elem_of_In, in_map_iff. exists (a, b). auto.
    + right. apply list_elem_of_In, in_map_iff. exists (a, b). auto.
  - apply seq_wf.
  - apply length_seq.
  - by apply conn_inv_init.
  - exists s'. simpl in *. auto 10.
Qed.

(** [getConnectedCompontents] on a well-formed instance. *)
Lemma getCC_spec (s : @St K _ _) :
  wf (forest (self s)) ->
  exists f', getConnectedCompontents s = Some (set_forest s f', zip (hashes (self s)) f') /\
    compresses (forest (self s)) f' /\
    (forall i, i < length (forest (self s)) -> direct f' i).
Proof.
  intros Hwf. destruct (simplify_wf _ Hwf) as (f' & E & Hc & Hd).
  exists f'. unfold getConnectedCompontents, m_simplifyForest. rewrite E. simpl. auto.
Qed.

Lemma labelOf_zip (hs : list K) (fs : list nat) k x :
  NoDup hs -> hs !! k = Some x -> labelOf (zip hs fs) x = fs !! k.
Proof.
  revert fs k. induction hs as [|h hs IH]; intros fs k Hnd Hk; [done|].
  apply NoDup_cons in Hnd as [Hh Hnd].
  destruct fs as [|l fs].
  - by destruct k.
  - destruct k as [|k]; simpl in Hk |- *.
    + injection Hk as ->. by rewrite decide_True.
    + rewrite decide_False by (intros ->; apply Hh, list_elem_of_lookup; eauto).
      by apply IH.
Qed.

(** The labeling is the partition into connected classes. *)
Lemma run_labels (c : @ClassAttrs K _ _) (E : list (K * K)) :
  pyset (keys E) ≡ₚ remove_dups (keys E) ->
  exists c' rows, run pyset c E = Some (c', rows) /\
    (forall x, x ∈ keys E -> exists l, labelOf rows x = Some l) /\
    (forall x y, x ∈ keys E -> y ∈ keys E ->
       labelOf rows x = labelOf rows y <-> connected E x y).
Proof.
  intros Hp. destruct (hashes_perm E Hp) as [Hnd Hel].
  destruct (init_spec c E Hp) as (s & Es & Hc & He & Hh & Hn & Hw & Hl & Hi).
  destruct (getCC_spec s Hw) as (f' & Eg & Hcf & Hd).
  pose proof Hcf as (Lf & Rf & _).
  exists (cls (set_forest s f')), (zip (hashes (self s)) f').
  split; [unfold run; rewrite Es; simpl; rewrite Eg; done|].
  assert (Hlab : forall x, x ∈ keys E -> exists k r, pyset (keys E) !! k = Some x /\
            labelOf (zip (hashes (self s)) f') x = Some r /\ reach (forest (self s)) k r).
  { intros x Hx. apply Hel, list_elem_of_lookup in Hx as [k Hk].
    assert (Hkl : k < length (forest (self s))) by (rewrite Hl; eapply lookup_lt_Some; eauto).
    destruct (direct_reach _ _ (Hd k Hkl)) as (r & Hkr & Hr).
    exists k, r. rewrite Hh, (labelOf_zip _ _ k x Hnd Hk), Hkr.
    split; [done|split; [done|by apply Rf]]. }
  split.
  - intros x Hx. destruct (Hlab x Hx) as (k & r & _ & -> & _). eauto.
  - intros x y Hx Hy.
    destruct (Hlab x Hx) as (i & rx & Hi' & -> & Hrx).
    destruct (Hlab y Hy) as (j & ry & Hj' & -> & Hry).
    rewrite <- (Hi i j x y rx ry Hi' Hj' Hrx Hry). split; [by intros [=]|by intros ->].
Qed.

End Run.
End LabelerFacts.

(** ** The claims *)

Module Claims.
Import Forest ForestFacts Labeler LabelerFacts Scenarios.

(** Evaluate one closed [run] or [init] of the goal. *)
Ltac eval_call :=
  match goal with
  | |- context [run ?p ?c ?e] =>
      let o := fresh "o" in let Eo := fresh "Eo" in
      remember (run p c e) as o eqn:Eo; vm_compute in Eo; subst o
  | |- context [init ?p ?c ?e] =>
      let o := fresh "o" in let Eo := fresh "Eo" in
      remember (init p c e) as o eqn:Eo; vm_compute in Eo; subst o
  | |- context [getConnectedCompontents ?s] =>
      let o := fresh "o" in let Eo := fresh "Eo" in
      remember (getConnectedCompontents s) as o eqn:Eo; vm_compute in Eo; subst o
  end.

(** Decide a proposition by evaluating its [Decision] instance. *)
Ltac decide_it := apply (bool_decide_unpack _); vm_compute; exact I.

Local Open Scope string_scope.

(** C1: for every edge list (and whatever the class dicts hold before the
    construction), the run succeeds and two keys that appear in some edge
    get the same label iff they are transitively connected by the edges.
    The only assumption is on the iteration order of the Python set: it
    lists every key once. *)
Theorem labeling_correct {K : Type} `{Countable K} (pyset : list K -> list K)
    (c : ClassAttrs) (E : list (K * K)) :
  pyset (keys E) ≡ₚ remove_dups (keys E) ->
  exists c' rows, run pyset c E = Some (c', rows) /\
    forall x y, x ∈ keys E -> y ∈ keys E ->
      (labelOf rows x = labelOf rows y <-> connected E x y).
Proof.
  intros Hp. destruct (run_labels pyset c E Hp) as (c' & rows & Er & _ & Hl).
  eauto.
Qed.

Lemma labeling_correct_witness :
  remove_dups (keys scenario1) ≡ₚ remove_dups (keys scenario1) /\
  exists c' rows, run remove_dups class0 scenario1 = Some (c', rows) /\
    forall x y, x ∈ keys scenario1 -> y ∈ keys scenario1 ->
      (labelOf rows x = labelOf rows y <-> connected scenario1 x y).
Proof.
  split; [reflexivity|]. apply labeling_correct. reflexivity.
Defined.

(** C5: on every ingested instance, [simplifyForest] makes every entry of
    the forest name the root its node reaches; a second [simplifyForest]
    changes nothing and a second [getConnectedCompontents] returns the
    same rows and leaves the same instance. *)
Theorem resolve_idempotent {K : Type} `{Countable K} (pyset : list K -> list K)
    (c : ClassAttrs) (E : list (K * K)) :
  pyset (keys E) ≡ₚ remove_dups (keys E) ->
  exists s s1 rows1, init pyset c E = Some s /\
    getConnectedCompontents s = Some (s1, rows1) /\
    (forall i, i < length (forest (self s)) ->
       exists r, forest (self s1) !! i = Some r /\ reach (forest (self s)) i r /\
                 forest (self s1) !! r = Some r) /\
    m_simplifyForest s1 = Some s1 /\
    getConnectedCompontents s1 = Some (s1, rows1).
Proof.
  intros Hp. destruct (init_spec pyset c E Hp) as (s & Es & _ & _ & _ & _ & Hw & _).
  destruct (getCC_spec s Hw) as (f' & Eg & Hc & Hd).
  pose proof Hc as (L & R & _).
  exists s, (set_forest s f'), (zip (hashes (self s)) f').
  assert (Hid : simplifyForest f' = Some f').
  { apply simplify_direct_id. intros j Hj. apply Hd. lia. }
  split; [done|split; [done|split; [|split]]].
  - intros i Hi. destruct (direct_reach _ _ (Hd i Hi)) as (r & Hir & Hr).
    exists r. split; [done|split; [by apply R|]]. eapply reach_is_root; eauto.
  - unfold m_simplifyForest. simpl. by rewrite Hid.
  - unfold getConnectedCompontents, m_simplifyForest. simpl. by rewrite Hid.
Qed.

Lemma resolve_idempotent_witness :
  remove_dups (keys scenario1) ≡ₚ remove_dups (keys scenario1) /\
  exists s s1 rows1, init remove_dups class0 scenario1 = Some s /\
    getConnectedCompontents s = Some (s1, rows1) /\
    (forall i, i < length (forest (self s)) ->
       exists r, forest (self s1) !! i = Some r /\ reach (forest (self s)) i r /\
                 forest (self s1) !! r = Some r) /\
    m_simplifyForest s1 = Some s1 /\
    getConnectedCompontents s1 = Some (s1, rows1).
Proof.
  split; [reflexivity|]. apply resolve_idempotent. reflexivity.
Defined.

(** C6: on every forest reachable by ingestion, [link(i, j)] on valid
    indices succeeds and leaves the number of components unchanged when
    [i] and [j] already share a root, and lowers it by exactly one when
    they do not. *)
Theorem link_merge_monotone (n : nat) (f : list nat) (i j : nat) :
  ingest_reachable n f -> i < n -> j < n ->
  exists f', link f i j = Some f' /\
    ((exists r, reach f i r /\ reach f j r) ->
       countOfComponents f' = countOfComponents f) /\
    (~ (exists r, reach f i r /\ reach f j r) ->
       S (countOfComponents f') = countOfComponents f).
Proof.
  intros Hr Hi Hj. destruct (ingest_reachable_wf n f Hr) as [Hwf Hlen].
  destruct (link_wf f i j Hwf ltac:(lia) ltac:(lia))
    as (ra & rb & g & f' & E & Hra & Hrb & Hc & Heq & Hne).
  exists f'. split; [done|split].
  - intros (r & Hir & Hjr).
    rewrite (reach_det _ _ _ _ Hra Hir), (reach_det _ _ _ _ Hrb Hjr) in Heq.
    rewrite (Heq eq_refl). by apply count_compresses.
  - intros Hnot. assert (n' : ra <> rb) by (intros ->; apply Hnot; eauto).
    rewrite (Hne n'), <- (count_compresses _ _ Hc). apply count_hang; [|done].
    apply (compresses_root _ _ _ Hc). eapply reach_is_root; eauto.
Qed.

Lemma link_merge_monotone_witness :
  ingest_reachable 3 (seq 0 3) /\ 0 < 3 /\ 1 < 3 /\
  exists f', link (seq 0 3) 0 1 = Some f' /\
    ((exists r, reach (seq 0 3) 0 r /\ reach (seq 0 3) 1 r) ->
       countOfComponents f' = countOfComponents (seq 0 3)) /\
    (~ (exists r, reach (seq 0 3) 0 r /\ reach (seq 0 3) 1 r) ->
       S (countOfComponents f') = countOfComponents (seq 0 3)).
Proof.
  split; [constructor|]. split; [lia|]. split; [lia|].
  apply (link_merge_monotone 3); [constructor|lia|lia].
Defined.

(** C8: an empty edge list registers no key, leaves no component and
    yields no output row. *)
Theorem empty_edges {K : Type} `{Countable K} (pyset : list K -> list K)
    (c : ClassAttrs) :
  pyset (keys []) ≡ₚ remove_dups (keys (@nil (K * K))) ->
  exists s s', init pyset c [] = Some s /\ numberOfNodes (self s) = 0 /\
    forest (self s) = [] /\ countOfComponents (forest (self s)) = 0 /\
    getConnectedCompontents s = Some (s', []).
Proof.
  intros Hp. simpl in Hp. symmetry in Hp. apply Permutation_nil in Hp.
  unfold init. rewrite Hp. simpl. eauto 10.
Qed.

Lemma empty_edges_witness :
  @remove_dups string _ (keys []) ≡ₚ remove_dups (keys (@nil (string * string))) /\
  exists s s', init remove_dups class0 (@nil (string * string)) = Some s /\
    numberOfNodes (self s) = 0 /\
    forest (self s) = [] /\ countOfComponents (forest (self s)) = 0 /\
    getConnectedCompontents s = Some (s', []).
Proof.
  split; [reflexivity|]. apply empty_edges. reflexivity.
Defined.

(** C9: [link], [connectedComponentIdentifier] and [simplifyForest] change
    the forest only: the class dicts [hash2seq] and [seq2hash], and the
    instance's [edges], [hashes] and [numberOfNodes] are left as they were. *)
Theorem methods_frame {K : Type} `{Countable K} (s : St (K := K)) (a b node : nat) :
  (forall s', m_link s a b = Some s' -> unchanged_except_forest s s') /\
  (forall s' r, m_connectedComponentIdentifier s node = Some (s', r) ->
     unchanged_except_forest s s') /\
  (forall s', m_simplifyForest s = Some s' -> unchanged_except_forest s s').
Proof.
  unfold m_link, m_connectedComponentIdentifier, m_simplifyForest,
    unchanged_except_forest.
  split; [|split].
  - intros s'. destruct (link _ a b); simpl; [|done]. intros [= <-]. simpl. tauto.
  - intros s' r. destruct (connectedComponentIdentifier _ node) as [[f r']|]; simpl;
      [|done]. intros [= <- _]. simpl. tauto.
  - intros s'. destruct (simplifyForest _); simpl; [|done]. intros [= <-]. simpl. tauto.
Qed.

(** C10: on a forest whose parent links are in range and acyclic,
    [connectedComponentIdentifier(i)] returns a root, the root [i] reached,
    and after the call every node reaches the root it reached before. *)
Theorem cci_preserves_partition (f : list nat) (i : nat) :
  in_range f -> acyclic f -> i < length f ->
  exists f' r, connectedComponentIdentifier f i = Some (f', r) /\
    f' !! r = Some r /\ reach f i r /\
    (forall x r', reach f x r' <-> reach f' x r').
Proof.
  intros Hin Hac Hi.
  destruct (cci_wf f i (conj Hin Hac) Hi) as (f' & r & E & Hr & (L & R & _) & _).
  exists f', r. split; [done|split; [|split; [done|done]]].
  apply R in Hr. eapply reach_is_root; eauto.
Qed.

Lemma cci_preserves_partition_witness :
  in_range [1; 2; 3; 3] /\ acyclic [1; 2; 3; 3] /\ 0 < length [1; 2; 3; 3] /\
  exists f' r, connectedComponentIdentifier [1; 2; 3; 3] 0 = Some (f', r) /\
    f' !! r = Some r /\ reach [1; 2; 3; 3] 0 r /\
    (forall x r', reach [1; 2; 3; 3] x r' <-> reach f' x r').
Proof.
  pose proof (wfb_wf [1; 2; 3; 3] ltac:(vm_compute; reflexivity)) as [Hin Hac].
  split; [exact Hin|]. split; [exact Hac|]. split; [simpl; lia|].
  apply cci_preserves_partition; [exact Hin|exact Hac|simpl; lia].
Defined.

(** C2 (code bug): [hash2seq] and [seq2hash] are class attributes that
    [__init__] mutates in place, so they are shared by all instances. After
    a labeler on [(A,B)] and then one on [(C,D)], the second labeler's
    [hash2seq] still maps [A] (a fresh one does not) and its [seq2hash]
    is the first one's, overwritten. The rows returned by the second run
    are still those of a fresh run. *)
Theorem class_dicts_shared :
  ('(c1, _) ← run remove_dups class0 [("A", "B")];
   '(c2, rows2) ← run remove_dups c1 [("C", "D")];
   '(c3, rows3) ← run remove_dups class0 [("C", "D")];
   Some (rows2, rows3,
         hash2seq c2 !! "A", hash2seq c2 !! "B", hash2seq c3 !! "A"))
  = Some ([("C", 1); ("D", 1)], [("C", 1); ("D", 1)], Some 0, Some 1, None).
Proof. vm_compute. reflexivity. Qed.

(** C3 (claim refuted): [connectedComponentIdentifier] is recursive and
    nests one call per node of the parent path. Ingesting the chain
    [(1,2), ..., (999,1000)] (integer keys: CPython iterates the set in
    ascending order) builds the path [1 -> 2 -> ... -> 1000], and the first
    call of the resolution, on index 0, nests 1000 calls; on chains of 9
    and 99 edges it nests 10 and 100: the depth grows with the chain. *)
Lemma chain_find_depth_1000 :
  map (fun n => s ← init remove_dups class0 (chain n);
                Some (depth (forest (self s)) 0)) [9; 99; 999]
  = [Some 10; Some 100; Some 1000].
Proof. vm_compute. reflexivity. Qed.

(** C3, as amended: the root lookup is recursive, with a depth of 1000
    nested calls on the chain of 999 edges; the resolution, when the stack
    allows that depth, gives one component holding the 1000 keys (all
    labelled with index 999, the key 1000). *)
Theorem chain_resolution :
  (s ← init remove_dups class0 (chain 999);
   '(s', rows) ← getConnectedCompontents s;
   Some (depth (forest (self s)) 0, map fst rows, map snd rows,
         countOfComponents (forest (self s'))))
  = Some (1000, map Z.of_nat (seq 1 1000), repeat 999 1000, 1).
Proof. vm_compute. reflexivity. Qed.

(** C4 (claim refuted): adding the self-loop [(C,C)] on a new key adds the
    class [{C}] to the partition. *)
Lemma self_loop_adds_class :
  ('(_, rows1) ← run remove_dups class0 [("A", "B")];
   '(_, rows2) ← run remove_dups class0 [("A", "B"); ("C", "C")];
   Some (rows1, rows2))
  = Some ([("A", 1); ("B", 1)], [("A", 1); ("B", 1); ("C", 2)]).
Proof. vm_compute. reflexivity. Qed.

(** C4, as amended: two edge lists over the same keys, whose edges other
    than self-loops are the same up to order, orientation and repetition,
    give the same partition of the keys; and adding a self-loop [(x, x)] on
    a key [x] that is no endpoint of the edges adds [x] as a class of its
    own: [x] is labelled, with a label no other key has, and the other keys
    are grouped as without the self-loop. *)
Theorem partition_edge_set_invariant :
  (forall (K : Type) `{Countable K}
      (pyset : list K -> list K) (c1 c2 : ClassAttrs) (E1 E2 : list (K * K)),
    pyset (keys E1) ≡ₚ remove_dups (keys E1) ->
    pyset (keys E2) ≡ₚ remove_dups (keys E2) ->
    keys E1 ⊆ keys E2 -> keys E2 ⊆ keys E1 ->
    Forall (fun e => e.1 = e.2 \/ e ∈ E2 \/ (e.2, e.1) ∈ E2) E1 ->
    Forall (fun e => e.1 = e.2 \/ e ∈ E1 \/ (e.2, e.1) ∈ E1) E2 ->
    exists c1' rows1 c2' rows2,
      run pyset c1 E1 = Some (c1', rows1) /\ run pyset c2 E2 = Some (c2', rows2) /\
      forall x y, x ∈ keys E1 -> y ∈ keys E1 ->
        (labelOf rows1 x = labelOf rows1 y <-> labelOf rows2 x = labelOf rows2 y)) /\
  (forall (K : Type) `{Countable K}
      (pyset : list K -> list K) (c : ClassAttrs) (E : list (K * K)) (x : K),
    pyset (keys E) ≡ₚ remove_dups (keys E) ->
    pyset (keys (E ++ [(x, x)])) ≡ₚ remove_dups (keys (E ++ [(x, x)])) ->
    x ∉ keys E ->
    exists c0 rows0 c' rows l,
      run pyset c E = Some (c0, rows0) /\ run pyset c (E ++ [(x, x)]) = Some (c', rows) /\
      labelOf rows x = Some l /\
      (forall y, y ∈ keys E -> labelOf rows y <> Some l) /\
      forall y z, y ∈ keys E -> z ∈ keys E ->
        (labelOf rows0 y = labelOf rows0 z <-> labelOf rows y = labelOf rows z)).
Proof.
  split.
  - intros K ? ? pyset c1 c2 E1 E2 Hp1 Hp2 Hk12 Hk21 He12 He21.
    destruct (run_labels pyset c1 E1 Hp1) as (c1' & rows1 & E1r & _ & L1).
    destruct (run_labels pyset c2 E2 Hp2) as (c2' & rows2 & E2r & _ & L2).
    exists c1', rows1, c2', rows2. split; [done|split; [done|]].
    intros x y Hx Hy. rewrite L1, L2 by auto.
    split; apply connected_ext; auto.
  - intros K ? ? pyset c E x Hp Hpx Hx.
    destruct (run_labels pyset c E Hp) as (c0 & rows0 & E0r & _ & L0).
    destruct (run_labels pyset c (E ++ [(x, x)]) Hpx) as (c' & rows & Er & Hl & L).
    assert (Hsub : forall y, y ∈ keys E -> y ∈ keys (E ++ [(x, x)])).
    { intros y. unfold keys. rewrite !map_app, !elem_of_app. tauto. }
    assert (Hxk : x ∈ keys (E ++ [(x, x)])).
    { unfold keys. rewrite !map_app, !elem_of_app. simpl. left. right. by left. }
    destruct (Hl x Hxk) as [l Hlx].
    assert (Hfar : forall y, y ∈ keys E -> ~ connected E y x).
    { intros y Hy Hc. assert (y = x) as -> by (by apply (connected_fresh E x y x Hx Hc)).
      done. }
    exists c0, rows0, c', rows, l.
    split; [done|split; [done|split; [done|split]]].
    + intros y Hy Hyl. rewrite <- Hlx in Hyl.
      apply (L y x (Hsub y Hy) Hxk), connected_snoc in Hyl as [?|[[? ?]|[? ?]]];
        by apply (Hfar y Hy).
    + intros y z Hy Hz. rewrite L0, L, connected_snoc by auto.
      split; [tauto|]. intros [?|[[? ?]|[? ?]]]; [done| |];
        exfalso; by apply (Hfar y Hy).
Qed.

Lemma partition_edge_set_invariant_witness :
  (remove_dups (keys perm_a) ≡ₚ remove_dups (keys perm_a) /\
   remove_dups (keys perm_b) ≡ₚ remove_dups (keys perm_b) /\
   keys perm_a ⊆ keys perm_b /\ keys perm_b ⊆ keys perm_a /\
   Forall (fun e => e.1 = e.2 \/ e ∈ perm_b \/ (e.2, e.1) ∈ perm_b) perm_a /\
   Forall (fun e => e.1 = e.2 \/ e ∈ perm_a \/ (e.2, e.1) ∈ perm_a) perm_b /\
   exists c1' rows1 c2' rows2,
     run remove_dups class0 perm_a = Some (c1', rows1) /\
     run remove_dups class0 perm_b = Some (c2', rows2) /\
     forall x y, x ∈ keys perm_a -> y ∈ keys perm_a ->
       (labelOf rows1 x = labelOf rows1 y <-> labelOf rows2 x = labelOf rows2 y)) /\
  (remove_dups (keys perm_a) ≡ₚ remove_dups (keys perm_a) /\
   remove_dups (keys (perm_a ++ [("D", "D")])) ≡ₚ remove_dups (keys (perm_a ++ [("D", "D")])) /\
   ("D" ∉ keys perm_a) /\
   exists c0 rows0 c' rows l,
     run remove_dups class0 perm_a = Some (c0, rows0) /\
     run remove_dups class0 (perm_a ++ [("D", "D")]) = Some (c', rows) /\
     labelOf rows "D" = Some l /\
     (forall y, y ∈ keys perm_a -> labelOf rows y <> Some l) /\
     forall y z, y ∈ keys perm_a -> z ∈ keys perm_a ->
       (labelOf rows0 y = labelOf rows0 z <-> labelOf rows y = labelOf rows z)).
Proof.
  split.
  - do 2 (split; [reflexivity|]).
    do 4 (split; [decide_it|]).
    apply (proj1 partition_edge_set_invariant); first [reflexivity|decide_it].
  - do 2 (split; [reflexivity|]). split; [decide_it|].
    apply (proj2 partition_edge_set_invariant); first [reflexivity|decide_it].
Defined.

(** C7 (claim refuted): there is no null check; the edge [(A, None)] is
    ingested, [None] is registered as a key and labelled. *)
Lemma null_key_not_rejected :
  snd <$> run remove_dups class0 null_edge = Some [(Some "A", 1); (None, 1)].
Proof. vm_compute. reflexivity. Qed.

(** C7, as amended: ingestion never fails on a null key: the run succeeds
    and the null key gets a label like any other key. *)
Theorem null_key_labelled {K : Type} `{Countable K}
    (pyset : list (option K) -> list (option K)) (c : ClassAttrs)
    (E : list (option K * option K)) :
  pyset (keys E) ≡ₚ remove_dups (keys E) -> None ∈ keys E ->
  exists c' rows l, run pyset c E = Some (c', rows) /\ labelOf rows None = Some l.
Proof.
  intros Hp Hn. destruct (run_labels pyset c E Hp) as (c' & rows & Er & Hl & _).
  destruct (Hl None Hn) as [l Hl']. eauto.
Qed.

Lemma null_key_labelled_witness :
  remove_dups (keys null_edge) ≡ₚ remove_dups (keys null_edge) /\
  None ∈ keys null_edge /\
  exists c' rows l, run remove_dups class0 null_edge = Some (c', rows) /\
    labelOf rows None = Some l.
Proof.
  split; [reflexivity|]. split; [decide_it|].
  apply null_key_labelled; [reflexivity|decide_it].
Defined.

End Claims.

(** ** Further properties of the labeler *)

Module ExtraFacts.
Import Forest ForestFacts Labeler LabelerFacts.

Lemma cci_length fuel f i f' r : cci fuel f i = Some (f', r) -> length f' = length f.
Proof.
  revert i f' r. induction fuel as [|fuel IH]; intros i f' r; simpl; [done|].
  destruct (f !! i) as [p|] eqn:Hi; [|done].
  case_decide.
  - destruct (cci fuel f p) as [[f1 r1]|] eqn:E; [|done]. intros [= <- <-].
    rewrite length_insert. eauto.
  - by intros [= <- <-].
Qed.

Lemma cci_out f i : length f <= i -> connectedComponentIdentifier f i = None.
Proof.
  unfold connectedComponentIdentifier. intros Hi.
  destruct (length f) as [|n] eqn:L; [done|]. simpl.
  by rewrite lookup_ge_None_2 by lia.
Qed.

(** The recursion of [connectedComponentIdentifier] rewrites exactly the
    nodes of the parent path, each to the root. *)
Lemma cci_path fuel f i r l :
  rpath f i r l -> length l <= fuel ->
  exists f', cci fuel f i = Some (f', r) /\
    (forall j, j ∈ l -> f' !! j = Some r) /\
    (forall j, j ∉ l -> f' !! j = f !! j).
Proof.
  intros Hp. revert fuel.
  induction Hp as [i Hi|i p r l Hip Hne Hp IH]; intros [|fuel] Hfuel;
    simpl in Hfuel; try lia; simpl.
  - rewrite Hi, decide_False by tauto. exists f. split; [done|split; [|done]].
    intros j ->%list_elem_of_singleton. done.
  - rewrite Hip, decide_True by done.
    destruct (IH fuel ltac:(lia)) as (f1 & -> & Hin & Hout).
    eexists. split; [done|].
    assert (Hlt : i < length f1).
    { destruct (decide (i ∈ l)) as [Hil|Hil].
      - apply lookup_lt_Some with r. by apply Hin.
      - apply lookup_lt_Some with p. by rewrite Hout. }
    split.
    + intros j Hj. destruct (decide (j = i)) as [->|Hji].
      * by rewrite list_lookup_insert_eq.
      * rewrite list_lookup_insert_ne by auto. apply Hin.
        by apply elem_of_cons in Hj as [->|Hj].
    + intros j Hj. rewrite list_lookup_insert_ne by (intros ->; apply Hj; constructor).
      apply Hout. intros Hj'. apply Hj. by constructor.
Qed.

Lemma same_root_iff f x y rx ry :
  reach f x rx -> reach f y ry ->
  ((exists r, reach f x r /\ reach f y r) <-> rx = ry).
Proof.
  intros Hx Hy. split.
  - intros (r & Hxr & Hyr).
    rewrite (reach_det _ _ _ _ Hx Hxr), (reach_det _ _ _ _ Hy Hyr). done.
  - intros ->. eauto.
Qed.

(** Any successful call only compresses the forest. *)
Lemma cci_compresses fuel f i f' r : cci fuel f i = Some (f', r) -> compresses f f'.
Proof.
  revert i f' r. induction fuel as [|fuel IH]; intros i f' r; simpl; [done|].
  destruct (f !! i) as [p|] eqn:Hi; [|done].
  case_decide as Hp.
  - destruct (cci fuel f p) as [[f1 r1]|] eqn:E; [|done]. intros [= <- <-].
    pose proof (IH _ _ _ E) as Hc. pose proof Hc as (_ & R & _).
    eapply compresses_trans; [exact Hc|]. apply compresses_insert, R.
    econstructor; [exact Hi|done|]. eapply cci_reach; eauto.
  - intros [= <- <-]. apply compresses_refl.
Qed.

Lemma simplify_loop_roots idx g g' :
  simplify_loop idx g = Some g' -> forall i, i ∈ idx -> exists r, reach g i r.
Proof.
  revert g. induction idx as [|i idx IH]; intros g E j Hj; [inversion Hj|].
  simpl in E. unfold connectedComponentIdentifier in E.
  destruct (cci (length g) g i) as [[g1 r]|] eqn:E1; [|done].
  pose proof (cci_reach _ _ _ _ _ E1) as Hr.
  pose proof (cci_compresses _ _ _ _ _ E1) as Hc1. pose proof Hc1 as (_ & R1 & _).
  assert (Hc : compresses g (<[i := r]> g1))
    by (eapply compresses_trans; [exact Hc1|apply compresses_insert, R1, Hr]).
  apply elem_of_cons in Hj as [->|Hj]; [eauto|].
  destruct (IH _ E j Hj) as [r' Hr']. exists r'. by apply Hc.
Qed.

Lemma acyclic_in_range f : acyclic f -> in_range f.
Proof.
  intros Ha i p Hi. destruct (Ha i (lookup_lt_Some _ _ _ Hi)) as [r Hr].
  inversion Hr as [? Hi'|? p' ? Hp' Hne Hpr]; subst.
  - rewrite Hi in Hi'. injection Hi' as ->. eapply lookup_lt_Some; eauto.
  - rewrite Hi in Hp'. injection Hp' as <-. eapply reach_lt; eauto.
Qed.


Section Rows.
Context {K : Type} `{Countable K}.
Variable pyset : list K -> list K.

Lemma register_seq_notin (hs : list K) sq c k :
  k < sq \/ sq + length hs <= k ->
  seq2hash (register hs sq c) !! k = seq2hash c !! k.
Proof.
  revert sq c. induction hs as [|h hs IH]; intros sq c Hk; [done|]. simpl in *.
  rewrite IH by lia. simpl. rewrite lookup_insert_ne; [done|lia].
Qed.

Lemma register_seq_lookup (hs : list K) sq c k x :
  hs !! k = Some x -> seq2hash (register hs sq c) !! (sq + k) = Some x.
Proof.
  revert sq c k. induction hs as [|h hs IH]; intros sq c k Hk; [done|].
  destruct k as [|k]; simpl in Hk |- *.
  - injection Hk as ->. rewrite register_seq_notin by lia. simpl.
    rewrite Nat.add_0_r. apply lookup_insert_eq.
  - replace (sq + S k) with (S sq + k) by lia. by apply IH.
Qed.

(** The rows of a run: the hashes zipped with the resolved forest. *)
Lemma run_rows (c : @ClassAttrs K _ _) (E : list (K * K)) :
  pyset (keys E) ≡ₚ remove_dups (keys E) ->
  exists s f', init pyset c E = Some s /\
    run pyset c E = Some (register (pyset (keys E)) 0 c, zip (pyset (keys E)) f') /\
    compresses (forest (self s)) f' /\ length f' = length (pyset (keys E)) /\
    (forall i, i < length f' -> direct f' i) /\
    wf (forest (self s)) /\ conn_inv (pyset (keys E)) E (forest (self s)).
Proof.
  intros Hp. destruct (init_spec pyset c E Hp) as (s & Es & Hc & He & Hh & Hn & Hw & Hl & Hi).
  destruct (getCC_spec s Hw) as (f' & Eg & Hcf & Hd).
  pose proof Hcf as (Lf & _ & _).
  exists s, f'. split; [done|]. split.
  - unfold run. rewrite Es. simpl. rewrite Eg. simpl. by rewrite Hc, Hh.
  - split; [done|]. split; [lia|]. split; [intros i Hi'; apply Hd; lia|]. auto.
Qed.

Lemma conn_inv_compress (hs : list K) E f g :
  compresses f g -> conn_inv hs E f -> conn_inv hs E g.
Proof.
  intros (_ & R & _) Inv i j x y rx ry Hi Hj Hx Hy.
  apply R in Hx, Hy. eauto.
Qed.

Lemma ingest_app (es1 es2 : list (K * K)) (s : @St K _ _) :
  ingest (es1 ++ es2) s = (s1 ← ingest es1 s; ingest es2 s1).
Proof.
  revert s. induction es1 as [|[a b] es1 IH]; intros s; simpl; [done|].
  destruct (hash2seq (cls s) !! a); simpl; [|done].
  destruct (hash2seq (cls s) !! b); simpl; [|done].
  destruct (m_link s _ _); simpl; [|done]. apply IH.
Qed.

(** [ingest] never reads [self.edges]. *)
Lemma ingest_edges (es : list (K * K)) c e e' (hs : list K) n f s' :
  ingest es (mkSt c (mkInst e hs n f)) = Some s' ->
  ingest es (mkSt c (mkInst e' hs n f)) =
    Some (mkSt (cls s') (mkInst e' (hashes (self s')) (numberOfNodes (self s'))
                                  (forest (self s')))).
Proof.
  revert f. induction es as [|[a b] es IH]; intros f; simpl.
  - by intros [= <-].
  - destruct (hash2seq c !! a); simpl; [|done].
    destruct (hash2seq c !! b); simpl; [|done].
    unfold m_link. simpl. destruct (link f _ _); simpl; [|done]. apply IH.
Qed.

(** Ingesting edges whose endpoints are already connected only compresses. *)
Lemma ingest_redundant (hs : list K) E (es : list (K * K)) (s : @St K _ _) :
  (forall k x, hs !! k = Some x -> hash2seq (cls s) !! x = Some k) ->
  (forall a b, In (a, b) es -> a ∈ hs /\ b ∈ hs /\ connected E a b) ->
  wf (forest (self s)) -> length (forest (self s)) = length hs ->
  conn_inv hs E (forest (self s)) ->
  exists g, ingest es s = Some (set_forest s g) /\ compresses (forest (self s)) g.
Proof.
  revert s. induction es as [|[a b] es IH]; intros s Hmap Hes Hwf Hlen Inv.
  - exists (forest (self s)). split; [|apply compresses_refl].
    simpl. by destruct s as [? []].
  - destruct (Hes a b (or_introl eq_refl)) as (Ha & Hb & Hab).
    apply list_elem_of_lookup in Ha as [ka Hka], Hb as [kb Hkb].
    simpl. rewrite (Hmap _ _ Hka), (Hmap _ _ Hkb). simpl.
    assert (ka < length (forest (self s))) by (rewrite Hlen; eapply lookup_lt_Some; eauto).
    assert (kb < length (forest (self s))) by (rewrite Hlen; eapply lookup_lt_Some; eauto).
    destruct (link_wf _ ka kb Hwf) as (ra & rb & g & f' & Ef' & Hra & Hrb & Hc & Heq & _);
      [done|done|].
    assert (ra = rb) as e by (eapply (Inv ka kb); eauto).
    rewrite (Heq e) in Ef'.
    unfold m_link. rewrite Ef'. simpl.
    pose proof Hc as (Lg & _ & _).
    destruct (IH (set_forest s g)) as (g' & E' & Hc'); simpl.
    + done.
    + intros a' b' Hin. apply Hes. by right.
    + by apply (compresses_wf _ _ Hc).
    + lia.
    + by apply (conn_inv_compress _ _ _ _ Hc).
    + exists g'. split; [done|]. eapply compresses_trans; eauto.
Qed.

(** Two resolved compressions of one forest are equal. *)
Lemma direct_unique f a b :
  compresses f a -> compresses f b ->
  (forall j, j < length a -> direct a j) -> (forall j, j < length b -> direct b j) ->
  a = b.
Proof.
  intros (La & Ra & _) (Lb & Rb & _) Da Db. apply list_eq. intros j.
  destruct (decide (j < length f)) as [Hj|Hj].
  - destruct (direct_reach _ _ (Da j ltac:(lia))) as (r & Hjr & Hr).
    destruct (direct_reach _ _ (Db j ltac:(lia))) as (r' & Hjr' & Hr').
    rewrite Hjr, Hjr'. f_equal. apply Ra in Hr. apply Rb in Hr'. eapply reach_det; eauto.
  - rewrite !lookup_ge_None_2 by lia. done.
Qed.

End Rows.


End ExtraFacts.

Module Extras.
Import Forest ForestFacts Labeler LabelerFacts Scenarios ExtraFacts.

(** [connectedComponentIdentifier(i)] compresses exactly the path it
    follows: along the parent path [l] from [i] to its root [r] every node
    is set to [r], and every other entry of the forest is left as it was. *)
Theorem cci_path_compression (f : list nat) (i r : nat) (l : list nat) :
  rpath f i r l ->
  exists f', connectedComponentIdentifier f i = Some (f', r) /\
    (forall j, j ∈ l -> f' !! j = Some r) /\
    (forall j, j ∉ l -> f' !! j = f !! j).
Proof.
  intros Hp. exact (cci_path (length f) f i r l Hp (rpath_bound _ _ _ _ Hp)).
Qed.

Lemma cci_path_compression_witness :
  rpath [1; 2; 3; 3; 4] 0 3 [0; 1; 2; 3] /\
  exists f', connectedComponentIdentifier [1; 2; 3; 3; 4] 0 = Some (f', 3) /\
    (forall j, j ∈ [0; 1; 2; 3] -> f' !! j = Some 3) /\
    (forall j, j ∉ [0; 1; 2; 3] -> f' !! j = [1; 2; 3; 3; 4] !! j).
Proof.
  assert (Hp : rpath [1; 2; 3; 3; 4] 0 3 [0; 1; 2; 3]).
  { repeat first [apply rp_root; reflexivity | eapply rp_step; [reflexivity|lia|]]. }
  split; [exact Hp|]. exact (cci_path_compression _ _ _ _ Hp).
Defined.

(** [connectedComponentIdentifier(i)] fails when following the parent
    links from [i] never reaches a root: on a cycle the recursion does not
    end ([RecursionError]), on a parent link out of range the subscript
    raises [IndexError]. *)
Theorem cci_no_root_fails (f : list nat) (i : nat) :
  (forall r, ~ reach f i r) -> connectedComponentIdentifier f i = None.
Proof.
  intros Hno. unfold connectedComponentIdentifier.
  destruct (cci (length f) f i) as [[f' r]|] eqn:E; [|done].
  exfalso. apply (Hno r). eapply cci_reach; eauto.
Qed.

Lemma cci_no_root_fails_witness :
  (forall r, ~ reach [1; 0] 0 r) /\ connectedComponentIdentifier [1; 0] 0 = None.
Proof.
  assert (Hno : forall r, ~ reach [1; 0] 0 r).
  { intros r Hr. apply reach_is_root in Hr. destruct r as [|[|r]];
      [simpl in Hr; congruence..|apply lookup_lt_Some in Hr; simpl in Hr; lia]. }
  split; [exact Hno|]. exact (cci_no_root_fails [1; 0] 0 Hno).
Defined.

(** [link(nodeA, nodeB)] fails ([IndexError]) whenever one of the two nodes
    is not an index of the forest. *)
Theorem link_index_error (f : list nat) (i j : nat) :
  length f <= i \/ length f <= j -> link f i j = None.
Proof.
  intros Hij. unfold link.
  destruct (decide (length f <= i)) as [Hi|Hi]; [by rewrite cci_out|].
  destruct (connectedComponentIdentifier f i) as [[f1 r]|] eqn:E1; [|done].
  unfold connectedComponentIdentifier in E1. apply cci_length in E1.
  rewrite cci_out by lia. done.
Qed.

Lemma link_index_error_witness :
  (length [0; 1] <= 0 \/ length [0; 1] <= 5) /\ link [0; 1] 0 5 = None.
Proof.
  assert (H : length [0; 1] <= 0 \/ length [0; 1] <= 5) by (right; simpl; lia).
  split; [exact H|]. exact (link_index_error [0; 1] 0 5 H).
Defined.

(** [link(a, b)] on a well-formed forest succeeds, keeps it well formed and
    of the same length; afterwards two nodes share a root iff they did
    before, or one shared the root of [a] and the other the root of [b]. *)
Theorem link_joins f a b :
  wf f -> a < length f -> b < length f ->
  exists f', link f a b = Some f' /\ wf f' /\ length f' = length f /\
    forall x y, x < length f -> y < length f ->
      ((exists r, reach f' x r /\ reach f' y r) <->
       (exists r, reach f x r /\ reach f y r) \/
       ((exists r, reach f x r /\ reach f a r) /\ (exists r, reach f b r /\ reach f y r)) \/
       ((exists r, reach f x r /\ reach f b r) /\ (exists r, reach f a r /\ reach f y r))).
Proof.
  intros Hwf Ha Hb.
  destruct (link_wf f a b Hwf Ha Hb) as (ra & rb & g & f' & E & Hra & Hrb & Hc & Heq & Hne).
  destruct (link_length f a b f' Hwf Ha Hb E) as [Lf' Wf'].
  exists f'. split; [done|split; [done|split; [done|]]].
  intros x y Hx Hy.
  destruct (proj2 Hwf x Hx) as [rx Hrx]. destruct (proj2 Hwf y Hy) as [ry Hry].
  rewrite (same_root_iff f x y rx ry Hrx Hry), (same_root_iff f x a rx ra Hrx Hra),
    (same_root_iff f b y rb ry Hrb Hry), (same_root_iff f x b rx rb Hrx Hrb),
    (same_root_iff f a y ra ry Hra Hry).
  pose proof Hc as (Lg & Rg & _).
  destruct (decide (ra = rb)) as [e|n].
  - rewrite (Heq e). rewrite (same_root_iff g x y rx ry) by (by apply Rg).
    subst rb. naive_solver.
  - rewrite (Hne n).
    pose proof (compresses_wf _ _ Hc Hwf) as Hwfg.
    assert (Hra' : g !! ra = Some ra)
      by (apply (compresses_root _ _ _ Hc); eapply reach_is_root; eauto).
    assert (Hrb' : g !! rb = Some rb)
      by (apply (compresses_root _ _ _ Hc); eapply reach_is_root; eauto).
    rewrite (same_root_iff (<[ra:=rb]> g) x y (retarget ra rb rx) (retarget ra rb ry))
      by (eapply hang_reach; eauto; by apply Rg).
    rewrite retarget_eq by done. naive_solver.
Qed.

Lemma link_joins_witness :
  wf [1; 2; 3; 3; 4] /\ 0 < length [1; 2; 3; 3; 4] /\ 4 < length [1; 2; 3; 3; 4] /\
  exists f', link [1; 2; 3; 3; 4] 0 4 = Some f' /\ wf f' /\
    length f' = length [1; 2; 3; 3; 4] /\
    forall x y, x < length [1; 2; 3; 3; 4] -> y < length [1; 2; 3; 3; 4] ->
      ((exists r, reach f' x r /\ reach f' y r) <->
       (exists r, reach [1; 2; 3; 3; 4] x r /\ reach [1; 2; 3; 3; 4] y r) \/
       ((exists r, reach [1; 2; 3; 3; 4] x r /\ reach [1; 2; 3; 3; 4] 0 r) /\
        (exists r, reach [1; 2; 3; 3; 4] 4 r /\ reach [1; 2; 3; 3; 4] y r)) \/
       ((exists r, reach [1; 2; 3; 3; 4] x r /\ reach [1; 2; 3; 3; 4] 4 r) /\
        (exists r, reach [1; 2; 3; 3; 4] 0 r /\ reach [1; 2; 3; 3; 4] y r))).
Proof.
  pose proof (wfb_wf [1; 2; 3; 3; 4] ltac:(vm_compute; reflexivity)) as Hw.
  split; [exact Hw|]. split; [simpl; lia|]. split; [simpl; lia|].
  apply link_joins; [exact Hw|simpl; lia|simpl; lia].
Defined.

(** [link(a, b)] hangs the component of [a] under the root of [b]: every
    node whose root was the root of [a] now has the root of [b], every
    other node keeps its root. *)
Theorem link_direction f a b :
  wf f -> a < length f -> b < length f ->
  exists f', link f a b = Some f' /\
    forall ra rb x r, reach f a ra -> reach f b rb -> reach f x r ->
      reach f' x (if decide (r = ra) then rb else r).
Proof.
  intros Hwf Ha Hb.
  destruct (link_wf f a b Hwf Ha Hb) as (ra & rb & g & f' & E & Hra & Hrb & Hc & Heq & Hne).
  exists f'. split; [done|]. intros ra' rb' x r Hra' Hrb' Hx.
  rewrite <- (reach_det _ _ _ _ Hra Hra'), <- (reach_det _ _ _ _ Hrb Hrb').
  pose proof Hc as (_ & Rg & _).
  destruct (decide (ra = rb)) as [e|n].
  - rewrite (Heq e). apply Rg. case_decide; subst; done.
  - rewrite (Hne n).
    pose proof (compresses_wf _ _ Hc Hwf) as Hwfg.
    assert (Hra2 : g !! ra = Some ra)
      by (apply (compresses_root _ _ _ Hc); eapply reach_is_root; eauto).
    assert (Hrb2 : g !! rb = Some rb)
      by (apply (compresses_root _ _ _ Hc); eapply reach_is_root; eauto).
    apply (hang_reach g ra rb); try done. by apply Rg.
Qed.

Lemma link_direction_witness :
  wf [1; 2; 3; 3; 4] /\ 0 < length [1; 2; 3; 3; 4] /\ 4 < length [1; 2; 3; 3; 4] /\
  exists f', link [1; 2; 3; 3; 4] 0 4 = Some f' /\
    forall ra rb x r, reach [1; 2; 3; 3; 4] 0 ra -> reach [1; 2; 3; 3; 4] 4 rb ->
      reach [1; 2; 3; 3; 4] x r -> reach f' x (if decide (r = ra) then rb else r).
Proof.
  pose proof (wfb_wf [1; 2; 3; 3; 4] ltac:(vm_compute; reflexivity)) as Hw.
  split; [exact Hw|]. split; [simpl; lia|]. split; [simpl; lia|].
  apply link_direction; [exact Hw|simpl; lia|simpl; lia].
Defined.

(** [simplifyForest()] fails on every forest in which some node never
    reaches a root (a cycle, or a parent link out of range), even when the
    nodes before it resolve. *)
Theorem simplify_no_root_fails (f : list nat) :
  (exists i, i < length f /\ forall r, ~ reach f i r) -> simplifyForest f = None.
Proof.
  intros (i & Hi & Hno). destruct (simplifyForest f) as [f'|] eqn:E; [|done].
  exfalso. unfold simplifyForest in E.
  destruct (simplify_loop_roots _ _ _ E i) as [r Hr]; [apply elem_of_seq; lia|].
  exact (Hno r Hr).
Qed.

Lemma simplify_no_root_fails_witness :
  (exists i, i < length [0; 2; 1] /\ forall r, ~ reach [0; 2; 1] i r) /\
  simplifyForest [0; 2; 1] = None.
Proof.
  assert (Hno : exists i, i < length [0; 2; 1] /\ forall r, ~ reach [0; 2; 1] i r).
  { assert (Hc : forall i r, reach [0; 2; 1] i r -> i = 1 \/ i = 2 -> False).
    { induction 1 as [i Hi|i p r Hp Hne _ IH]; intros [-> | ->]; simpl in *;
        try congruence; injection Hp as <-; auto. }
    exists 1. split; [simpl; lia|]. intros r Hr. eapply Hc; eauto. }
  split; [exact Hno|]. exact (simplify_no_root_fails _ Hno).
Defined.

(** After a run the class dicts map the [id] of output row [k] to [k] and
    back ([hash2seq[id] == k], [seq2hash[k] == id]); entries of an earlier
    run survive for keys that are not endpoints of the new edges, and in
    [seq2hash] for indices past the new number of rows. *)
Theorem dicts_roundtrip {K : Type} `{Countable K} (pyset : list K -> list K)
    (c : ClassAttrs) (E : list (K * K)) :
  pyset (keys E) ≡ₚ remove_dups (keys E) ->
  exists c' rows, run pyset c E = Some (c', rows) /\
    (forall k x l, rows !! k = Some (x, l) ->
       hash2seq c' !! x = Some k /\ seq2hash c' !! k = Some x) /\
    (forall x, x ∉ keys E -> hash2seq c' !! x = hash2seq c !! x) /\
    (forall k, length rows <= k -> seq2hash c' !! k = seq2hash c !! k).
Proof.
  intros Hp. destruct (hashes_perm pyset E Hp) as [Hnd Hel].
  destruct (run_rows pyset c E Hp) as (s & f' & _ & Er & _ & Lf & _).
  eexists _, _. split; [exact Er|]. split; [|split].
  - intros k x l [Hk _]%lookup_zip_Some. split.
    + by apply (register_lookup (pyset (keys E)) 0 c k x).
    + by apply (register_seq_lookup (pyset (keys E)) 0 c k x).
  - intros x Hx. apply register_notin. by rewrite Hel.
  - intros k Hk. rewrite length_zip in Hk. apply register_seq_notin. lia.
Qed.

Lemma dicts_roundtrip_witness :
  remove_dups (keys scenario1) ≡ₚ remove_dups (keys scenario1) /\
  exists c' rows, run remove_dups class0 scenario1 = Some (c', rows) /\
    (forall k x l, rows !! k = Some (x, l) ->
       hash2seq c' !! x = Some k /\ seq2hash c' !! k = Some x) /\
    (forall x, x ∉ keys scenario1 -> hash2seq c' !! x = hash2seq class0 !! x) /\
    (forall k, length rows <= k -> seq2hash c' !! k = seq2hash class0 !! k).
Proof.
  split; [reflexivity|]. apply dicts_roundtrip. reflexivity.
Defined.

(** Every label is a row index of the output: the row at index [cc] holds a
    key connected to the row's key, and that row is labelled [cc] itself. *)
Theorem labels_canonical {K : Type} `{Countable K} (pyset : list K -> list K)
    (c : ClassAttrs) (E : list (K * K)) :
  pyset (keys E) ≡ₚ remove_dups (keys E) ->
  exists c' rows, run pyset c E = Some (c', rows) /\
    forall k x l, rows !! k = Some (x, l) ->
      exists y, rows !! l = Some (y, l) /\ connected E x y.
Proof.
  intros Hp. destruct (hashes_perm pyset E Hp) as [Hnd Hel].
  destruct (run_rows pyset c E Hp) as (s & f' & _ & Er & Hc & Lf & Hd & _ & Inv).
  pose proof Hc as (L & R & _).
  eexists _, _. split; [exact Er|].
  intros k x l [Hk Hkl]%lookup_zip_Some.
  destruct (direct_reach _ _ (Hd k (lookup_lt_Some _ _ _ Hkl))) as (r & Hkr & Hr).
  rewrite Hkl in Hkr. injection Hkr as <-.
  assert (Hlt : l < length (pyset (keys E))) by (rewrite <- Lf; eapply reach_lt, reach_root, reach_is_root, Hr).
  destruct (lookup_lt_is_Some_2 _ _ Hlt) as [y Hy].
  exists y. split; [apply lookup_zip_Some; split; [done|eapply reach_is_root; eauto]|].
  rewrite <- (Inv k l x y l l Hk Hy); [done| |].
  - by apply R.
  - apply reach_root. apply (compresses_root _ _ _ Hc). eapply reach_is_root; eauto.
Qed.

Lemma labels_canonical_witness :
  remove_dups (keys scenario1) ≡ₚ remove_dups (keys scenario1) /\
  exists c' rows, run remove_dups class0 scenario1 = Some (c', rows) /\
    forall k x l, rows !! k = Some (x, l) ->
      exists y, rows !! l = Some (y, l) /\ connected scenario1 x y.
Proof.
  split; [reflexivity|]. apply labels_canonical. reflexivity.
Defined.

(** The values of the [cc] column are exactly the roots of the forest
    built by [__init__] (the indices [i] with [forest[i] == i]); hence the
    number of distinct labels is the number of roots. *)
Theorem label_values_roots {K : Type} `{Countable K} (pyset : list K -> list K)
    (c : ClassAttrs) (E : list (K * K)) :
  pyset (keys E) ≡ₚ remove_dups (keys E) ->
  exists s c' rows, init pyset c E = Some s /\ run pyset c E = Some (c', rows) /\
    (forall l, l ∈ snd <$> rows <-> forest (self s) !! l = Some l) /\
    length (remove_dups (snd <$> rows)) = countOfComponents (forest (self s)).
Proof.
  intros Hp.
  destruct (run_rows pyset c E Hp) as (s & f' & Es & Er & Hc & Lf & Hd & _ & _).
  pose proof Hc as (L & R & _).
  assert (Hel : forall l, l ∈ snd <$> zip (pyset (keys E)) f' <-> forest (self s) !! l = Some l).
  { intros l. rewrite snd_zip by lia. split.
    - intros (k & Hk)%list_elem_of_lookup.
      destruct (Hd k (lookup_lt_Some _ _ _ Hk)) as (r & Hkr & Hr).
      rewrite Hk in Hkr. injection Hkr as <-. by apply (compresses_root _ _ _ Hc).
    - intros Hl. apply list_elem_of_lookup. exists l. by apply (compresses_root _ _ _ Hc). }
  exists s, (register (pyset (keys E)) 0 c), (zip (pyset (keys E)) f'). split; [done|]. split; [exact Er|]. split; [exact Hel|].
  unfold countOfComponents. apply Permutation_length, NoDup_Permutation.
  - apply NoDup_remove_dups.
  - apply NoDup_filter, NoDup_seq.
  - intros l. rewrite elem_of_remove_dups, Hel, list_elem_of_filter, elem_of_seq.
    split; [|tauto]. intros Hl. split; [done|]. split; [lia|]. simpl. eapply lookup_lt_Some; eauto.
Qed.

Lemma label_values_roots_witness :
  remove_dups (keys scenario1) ≡ₚ remove_dups (keys scenario1) /\
  exists s c' rows, init remove_dups class0 scenario1 = Some s /\ run remove_dups class0 scenario1 = Some (c', rows) /\
    (forall l, l ∈ snd <$> rows <-> forest (self s) !! l = Some l) /\
    length (remove_dups (snd <$> rows)) = countOfComponents (forest (self s)).
Proof.
  split; [reflexivity|]. apply label_values_roots. reflexivity.
Defined.

(** Appending edges whose endpoints already occur and are already
    connected changes nothing: when the set of keys iterates in the same
    order, the run returns the same rows and the same class dicts. *)
Theorem redundant_edges {K : Type} `{Countable K} (pyset : list K -> list K)
    (c : ClassAttrs) (E E' : list (K * K)) :
  pyset (keys E) ≡ₚ remove_dups (keys E) ->
  pyset (keys (E ++ E')) = pyset (keys E) ->
  Forall (fun e => e.1 ∈ keys E /\ e.2 ∈ keys E /\ connected E e.1 e.2) E' ->
  exists c' rows, run pyset c E = Some (c', rows) /\ run pyset c (E ++ E') = Some (c', rows).
Proof.
  intros Hp Hpy HE'. destruct (hashes_perm pyset E Hp) as [Hnd Hel].
  destruct (init_spec pyset c E Hp) as (s & Es & Hc & He & Hh & Hn & Hw & Hl & Hi).
  destruct (getCC_spec s Hw) as (f' & Eg & Hcf & Hd).
  exists (cls s), (zip (hashes (self s)) f').
  split; [unfold run; rewrite Es; simpl; by rewrite Eg|].
  unfold run. unfold init in Es |- *. cbv zeta in Es |- *. rewrite Hpy, ingest_app.
  set (hs := pyset (keys E)) in *.
  set (s1 := mkSt (cls s) (mkInst (E ++ E') (hashes (self s)) (numberOfNodes (self s)) (forest (self s)))).
  rewrite (ingest_edges _ _ _ (E ++ E') _ _ _ _ Es). fold s1. simpl.
  destruct (ingest_redundant hs E E' s1) as (g & Eg1 & Hcg); simpl.
  - intros k x Hk. rewrite Hc. by apply (register_lookup hs 0 c k x).
  - intros a b Hin. rewrite Forall_forall in HE'.
    destruct (HE' (a, b) (proj2 (list_elem_of_In _ _) Hin)) as (Ha & Hb & Hab).
    simpl in *. rewrite !Hel. auto.
  - done.
  - done.
  - done.
  - rewrite Eg1. simpl.
    destruct (simplify_wf g (compresses_wf _ _ Hcg Hw)) as (g' & Eg' & Hcg' & Hdg').
    unfold getConnectedCompontents, m_simplifyForest. simpl. rewrite Eg'. simpl.
    pose proof Hcf as (Lf & _ & _). pose proof Hcg as (Lg & _ & _).
    pose proof Hcg' as (Lg' & _ & _).
    assert (g' = f') as ->.
    { apply (direct_unique (forest (self s))).
      - eapply compresses_trans; eauto.
      - done.
      - intros j Hj. apply Hdg'. lia.
      - intros j Hj. apply Hd. lia. }
    done.
Qed.

Lemma redundant_edges_witness :
  remove_dups (keys scenario1) ≡ₚ remove_dups (keys scenario1) /\
  remove_dups (keys (scenario1 ++ scenario1)) = remove_dups (keys scenario1) /\
  Forall (fun e => e.1 ∈ keys scenario1 /\ e.2 ∈ keys scenario1 /\
                   connected scenario1 e.1 e.2) scenario1 /\
  exists c' rows, run remove_dups class0 scenario1 = Some (c', rows) /\
    run remove_dups class0 (scenario1 ++ scenario1) = Some (c', rows).
Proof.
  assert (Hk : remove_dups (keys (scenario1 ++ scenario1)) = remove_dups (keys scenario1))
    by (vm_compute; reflexivity).
  assert (He : Forall (fun e => e.1 ∈ keys scenario1 /\ e.2 ∈ keys scenario1 /\
                                connected scenario1 e.1 e.2) scenario1).
  { apply Forall_forall. intros [a b] Hab. simpl. split; [|split].
    - apply elem_of_app. left. apply list_elem_of_fmap. exists (a, b). done.
    - apply elem_of_app. right. apply list_elem_of_fmap. exists (a, b). done.
    - apply rst_step. by apply list_elem_of_In. }
  split; [reflexivity|]. split; [exact Hk|]. split; [exact He|].
  apply redundant_edges; [reflexivity|exact Hk|exact He].
Defined.

End Extras.
